(** * get-time-limited-file-cache: a shallow embedding of [index.js]

    The module exports a factory that builds a [Proxy] whose [set] and [get]
    traps implement a two-tier cache (memory, then one file per key).  All
    state lives in six plain objects closed over by the traps, in the Node
    event loop (in-flight [fs] calls whose callbacks run later) and in the
    timer queue ([setTimeout] / [clearTimeout]).

    The embedding keeps that shape.  The six objects are finite maps keyed by
    file name; the event loop is a map from operation handles to the
    defunctionalised callback that [fs] will call; the timer queue is a map
    from timer handles to what the timer does.  Every source function is a
    state transformer with the source's name and the source's statement
    order.  What the program does to the outside world (observer calls, [fs]
    calls, uncaught exceptions) is appended to a log.

    The embedding describes the cache as its JSDoc says it is used: keys are
    file names and assigned contents are buffers.  Two things lie outside:
    keys that name a property of [Object.prototype] (reading [o[k]] on one of
    the six objects then finds the inherited property, and assigning
    [o["__proto__"]] replaces the prototype), and contents that are not
    buffers (which [fs.writeFile] rejects where it is called).  The
    statements that depend on this say so with [own_key], [is_buffer] and
    [in_use]. *)

From stdpp Require Import gmap strings list fin_maps.

(** ** Values *)

(** What a cache slot can hold: a [Buffer], [null] (the source stores [null]
    itself at several places) or [undefined] (what reading a missing property
    gives).  A [Buffer] is an object: [===] and [!==] compare references, so a
    buffer is represented by its reference. *)
Inductive value : Type :=
| Undefined
| Null
| Buffer (ref : nat).

#[global] Instance value_eq_dec : EqDecision value := ltac:(solve_decision).

(** [typeof v !== "undefined"] *)
Definition is_defined (v : value) : bool :=
  match v with
  | Undefined => false
  | _ => true
  end.

(** [a !== b] on cache values. *)
Definition strict_neq (a b : value) : bool := bool_decide (a ≠ b).

(** [o[k]] on a plain object, for a key that names no property of
    [Object.prototype]: the stored value, [undefined] when the property is
    missing. *)
Definition prop (o : gmap string value) (k : string) : value :=
  default Undefined (o !! k).

(** ** Configuration: the parameters of the exported factory *)

(** The three observers are optional ([null] by default); the embedding
    records whether each one was given, and logs its calls. *)
Record config : Type := {
  cacheDir : string;
  onSet : bool;
  onMemoryRemove : bool;
  memoryTTL : Z;
  onFileRemove : bool;
  fileTTL : Z
}.

(** The defaults of the parameter list: no observer, 10 s and 10 min. *)
Definition default_config (dir : string) : config :=
  {| cacheDir := dir; onSet := false; onMemoryRemove := false;
     memoryTTL := 10000%Z; onFileRemove := false; fileTTL := 600000%Z |}.

(** ** The event loop *)

(** The three closures handed to [readFile] as [callback]. *)
Inductive read_callback : Type :=
| SetCallback (content : value)   (* lines 49-55, in [handler.set] *)
| GetCallback (promise : nat)     (* lines 77-84, in [handler.get]; holds [resolve] *)
| EvictCallback.                  (* lines 153-160, in the file timer *)

(** An [fs] call that has been issued and whose callback has not run yet. *)
Inductive io_op : Type :=
| OpReadFile (fileName : string) (callback : read_callback)
| OpWriteFile (fileName : string) (newContent : value)
| OpRm (fileName : string).

(** The two closures handed to [setTimeout]. *)
Inductive timer : Type :=
| MemoryTimer (fileName : string) (delay : Z)
| FileTimer (fileName : string) (delay : Z).

(** The promises of this program are never rejected. *)
Inductive promise_state : Type :=
| Pending
| Fulfilled (v : value).

(** What the program does to its environment, in program order: the calls of
    the three observers (which are taken not to call back into the cache), the
    [fs] calls with the handle of the operation they start, and the errors
    thrown out of an [fs] callback or a timer.  Such an error is uncaught;
    what the process does with it is outside the embedding, which only
    records it and stops the callback there.  [fs.rm] never starts an
    operation (see [removeFile]), so there is no effect for it. *)
Inductive effect : Type :=
| CallOnSet (fileName : string) (content : value)
| CallOnMemoryRemove (fileName : string) (content : value)
| CallOnFileRemove (fileName : string) (content : value)
| FsReadFile (op : nat) (fileName : string)
| FsWriteFile (op : nat) (fileName : string) (data : value)
| Throw (error : string).

#[global] Instance effect_eq_dec : EqDecision effect := ltac:(solve_decision).

(** ** State *)

(** The first six fields are the six objects of the factory closure, under
    their source names.  A timer slot holds a handle or [null] ([None]). *)
Record state : Type := {
  promiseCaches : gmap string nat;
  memoryCaches : gmap string value;
  memoryTimeLimits : gmap string (option nat);
  fileTimeLimits : gmap string (option nat);
  isFileAccessing : gmap string bool;
  hasQueue : gmap string value;
  promises : gmap nat promise_state;
  inflight : gmap nat io_op;
  timers : gmap nat timer;
  nextPromise : nat;
  nextOp : nat;
  nextTimer : nat;
  log : list effect
}.

(** A freshly built cache. *)
Definition init : state :=
  {| promiseCaches := ∅; memoryCaches := ∅; memoryTimeLimits := ∅;
     fileTimeLimits := ∅; isFileAccessing := ∅; hasQueue := ∅;
     promises := ∅; inflight := ∅; timers := ∅;
     nextPromise := 0; nextOp := 0; nextTimer := 0; log := [] |}.

Definition upd_promiseCaches (f : gmap string nat → gmap string nat) (s : state) : state :=
  {| promiseCaches := f (promiseCaches s); memoryCaches := memoryCaches s;
     memoryTimeLimits := memoryTimeLimits s; fileTimeLimits := fileTimeLimits s;
     isFileAccessing := isFileAccessing s; hasQueue := hasQueue s;
     promises := promises s; inflight := inflight s; timers := timers s;
     nextPromise := nextPromise s; nextOp := nextOp s; nextTimer := nextTimer s;
     log := log s |}.

Definition upd_memoryCaches (f : gmap string value → gmap string value) (s : state) : state :=
  {| promiseCaches := promiseCaches s; memoryCaches := f (memoryCaches s);
     memoryTimeLimits := memoryTimeLimits s; fileTimeLimits := fileTimeLimits s;
     isFileAccessing := isFileAccessing s; hasQueue := hasQueue s;
     promises := promises s; inflight := inflight s; timers := timers s;
     nextPromise := nextPromise s; nextOp := nextOp s; nextTimer := nextTimer s;
     log := log s |}.

Definition upd_memoryTimeLimits
  (f : gmap string (option nat) → gmap string (option nat)) (s : state) : state :=
  {| promiseCaches := promiseCaches s; memoryCaches := memoryCaches s;
     memoryTimeLimits := f (memoryTimeLimits s); fileTimeLimits := fileTimeLimits s;
     isFileAccessing := isFileAccessing s; hasQueue := hasQueue s;
     promises := promises s; inflight := inflight s; timers := timers s;
     nextPromise := nextPromise s; nextOp := nextOp s; nextTimer := nextTimer s;
     log := log s |}.

Definition upd_fileTimeLimits
  (f : gmap string (option nat) → gmap string (option nat)) (s : state) : state :=
  {| promiseCaches := promiseCaches s; memoryCaches := memoryCaches s;
     memoryTimeLimits := memoryTimeLimits s; fileTimeLimits := f (fileTimeLimits s);
     isFileAccessing := isFileAccessing s; hasQueue := hasQueue s;
     promises := promises s; inflight := inflight s; timers := timers s;
     nextPromise := nextPromise s; nextOp := nextOp s; nextTimer := nextTimer s;
     log := log s |}.

Definition upd_isFileAccessing (f : gmap string bool → gmap string bool) (s : state) : state :=
  {| promiseCaches := promiseCaches s; memoryCaches := memoryCaches s;
     memoryTimeLimits := memoryTimeLimits s; fileTimeLimits := fileTimeLimits s;
     isFileAccessing := f (isFileAccessing s); hasQueue := hasQueue s;
     promises := promises s; inflight := inflight s; timers := timers s;
     nextPromise := nextPromise s; nextOp := nextOp s; nextTimer := nextTimer s;
     log := log s |}.

Definition upd_hasQueue (f : gmap string value → gmap string value) (s : state) : state :=
  {| promiseCaches := promiseCaches s; memoryCaches := memoryCaches s;
     memoryTimeLimits := memoryTimeLimits s; fileTimeLimits := fileTimeLimits s;
     isFileAccessing := isFileAccessing s; hasQueue := f (hasQueue s);
     promises := promises s; inflight := inflight s; timers := timers s;
     nextPromise := nextPromise s; nextOp := nextOp s; nextTimer := nextTimer s;
     log := log s |}.

Definition upd_promises
  (f : gmap nat promise_state → gmap nat promise_state) (s : state) : state :=
  {| promiseCaches := promiseCaches s; memoryCaches := memoryCaches s;
     memoryTimeLimits := memoryTimeLimits s; fileTimeLimits := fileTimeLimits s;
     isFileAccessing := isFileAccessing s; hasQueue := hasQueue s;
     promises := f (promises s); inflight := inflight s; timers := timers s;
     nextPromise := nextPromise s; nextOp := nextOp s; nextTimer := nextTimer s;
     log := log s |}.

Definition upd_inflight (f : gmap nat io_op → gmap nat io_op) (s : state) : state :=
  {| promiseCaches := promiseCaches s; memoryCaches := memoryCaches s;
     memoryTimeLimits := memoryTimeLimits s; fileTimeLimits := fileTimeLimits s;
     isFileAccessing := isFileAccessing s; hasQueue := hasQueue s;
     promises := promises s; inflight := f (inflight s); timers := timers s;
     nextPromise := nextPromise s; nextOp := nextOp s; nextTimer := nextTimer s;
     log := log s |}.

Definition upd_timers (f : gmap nat timer → gmap nat timer) (s : state) : state :=
  {| promiseCaches := promiseCaches s; memoryCaches := memoryCaches s;
     memoryTimeLimits := memoryTimeLimits s; fileTimeLimits := fileTimeLimits s;
     isFileAccessing := isFileAccessing s; hasQueue := hasQueue s;
     promises := promises s; inflight := inflight s; timers := f (timers s);
     nextPromise := nextPromise s; nextOp := nextOp s; nextTimer := nextTimer s;
     log := log s |}.

Definition bump_nextPromise (s : state) : state :=
  {| promiseCaches := promiseCaches s; memoryCaches := memoryCaches s;
     memoryTimeLimits := memoryTimeLimits s; fileTimeLimits := fileTimeLimits s;
     isFileAccessing := isFileAccessing s; hasQueue := hasQueue s;
     promises := promises s; inflight := inflight s; timers := timers s;
     nextPromise := S (nextPromise s); nextOp := nextOp s; nextTimer := nextTimer s;
     log := log s |}.

Definition bump_nextOp (s : state) : state :=
  {| promiseCaches := promiseCaches s; memoryCaches := memoryCaches s;
     memoryTimeLimits := memoryTimeLimits s; fileTimeLimits := fileTimeLimits s;
     isFileAccessing := isFileAccessing s; hasQueue := hasQueue s;
     promises := promises s; inflight := inflight s; timers := timers s;
     nextPromise := nextPromise s; nextOp := S (nextOp s); nextTimer := nextTimer s;
     log := log s |}.

Definition bump_nextTimer (s : state) : state :=
  {| promiseCaches := promiseCaches s; memoryCaches := memoryCaches s;
     memoryTimeLimits := memoryTimeLimits s; fileTimeLimits := fileTimeLimits s;
     isFileAccessing := isFileAccessing s; hasQueue := hasQueue s;
     promises := promises s; inflight := inflight s; timers := timers s;
     nextPromise := nextPromise s; nextOp := nextOp s; nextTimer := S (nextTimer s);
     log := log s |}.

(** Append one effect to the log. *)
Definition emit (e : effect) (s : state) : state :=
  {| promiseCaches := promiseCaches s; memoryCaches := memoryCaches s;
     memoryTimeLimits := memoryTimeLimits s; fileTimeLimits := fileTimeLimits s;
     isFileAccessing := isFileAccessing s; hasQueue := hasQueue s;
     promises := promises s; inflight := inflight s; timers := timers s;
     nextPromise := nextPromise s; nextOp := nextOp s; nextTimer := nextTimer s;
     log := log s ++ [e] |}.

(** ** Runtime primitives *)

(** [setTimeout(action, delay)]: a fresh handle, queued. *)
Definition setTimeout (mk : Z → timer) (delay : Z) (s : state) : nat * state :=
  let h := nextTimer s in
  (h, bump_nextTimer (upd_timers <[h := mk delay]> s)).

(** [clearTimeout(h)]: a timer that has fired or was cleared is not in the
    queue, and clearing it does nothing. *)
Definition clearTimeout (h : nat) (s : state) : state :=
  upd_timers (delete h) s.

(** [if(limits[fileName]) clearTimeout(limits[fileName])]: a handle is truthy,
    [null] and a missing property are not. *)
Definition clearIfSet (slot : option (option nat)) (s : state) : state :=
  match slot with
  | Some (Some h) => clearTimeout h s
  | _ => s
  end.

(** Issue an [fs] call: it gets a handle and waits in the event loop. *)
Definition issue (op : io_op) (s : state) : nat * state :=
  let h := nextOp s in
  (h, bump_nextOp (upd_inflight <[h := op]> s)).

(** [new Promise(...)] in the given initial state. *)
Definition newPromise (st : promise_state) (s : state) : nat * state :=
  let p := nextPromise s in
  (p, bump_nextPromise (upd_promises <[p := st]> s)).

(** [resolve(v)]: settles a pending promise, does nothing to a settled one. *)
Definition resolve (p : nat) (v : value) (s : state) : state :=
  match promises s !! p with
  | Some Pending => upd_promises <[p := Fulfilled v]> s
  | _ => s
  end.

(** How a call ends: it returns, or it throws.  Either way it leaves a
    state behind. *)
Inductive outcome : Type :=
| Returned (s : state)
| Threw (s : state).

Definition state_of (o : outcome) : state :=
  match o with
  | Returned s => s
  | Threw s => s
  end.

(** ** The program *)

Section Cache.

(** The arguments the factory was called with. *)
Variable cfg : config.

(** [scheduleRemoveMemoryCache] (lines 132-142): the scheduling half.  The
    closure it queues is [fireMemoryTimer] below. *)
Definition scheduleRemoveMemoryCache (fileName : string) (s : state) : state :=
  let s := clearIfSet (memoryTimeLimits s !! fileName) s in
  let '(h, s) := setTimeout (MemoryTimer fileName) (memoryTTL cfg) s in
  upd_memoryTimeLimits <[fileName := Some h]> s.

(** [scheduleRemoveFileCache] (lines 144-168): the scheduling half.  The
    closure it queues is [fireFileTimer] below. *)
Definition scheduleRemoveFileCache (fileName : string) (s : state) : state :=
  let s := clearIfSet (fileTimeLimits s !! fileName) s in
  let '(h, s) := setTimeout (FileTimer fileName) (fileTTL cfg) s in
  upd_fileTimeLimits <[fileName := Some h]> s.

(** [readFile] (lines 94-103), up to the [fs.readFile] call; the callback it
    passes to [fs] is [completeRead] below.  The path read is
    [path.join(cacheDir, fileName)]. *)
Definition readFile (fileName : string) (callback : read_callback) (s : state) : state :=
  let s := upd_isFileAccessing <[fileName := true]> s in
  let '(h, s) := issue (OpReadFile fileName callback) s in
  emit (FsReadFile h fileName) s.

(** [removeFile] (lines 170-178).  The call on line 173 is
    [fs.rm(path, null, callback)]: Node checks the options of [fs.rm] before
    anything else and rejects [null] with [ERR_INVALID_ARG_TYPE], so the call
    throws where it stands, after line 172 has set the flag.  No removal is
    started and the callback on lines 174-177 ([completeRm] below) is never
    registered. *)
Definition removeFile (fileName : string) (s : state) : outcome :=
  let s := upd_isFileAccessing <[fileName := true]> s in
  Threw (emit (Throw "ERR_INVALID_ARG_TYPE") s).

(** [writeFile] (lines 105-119), up to the [fs.writeFile] call, for the
    contents the JSDoc of the factory allows (line 12): [fs.writeFile] takes
    a buffer. *)
Definition writeFile (fileName : string) (newContent : value) (s : state) : state :=
  if strict_neq (prop (memoryCaches s) fileName) newContent then
    let s := upd_memoryCaches <[fileName := newContent]> s in
    let s := upd_isFileAccessing <[fileName := true]> s in
    let '(h, s) := issue (OpWriteFile fileName newContent) s in
    let s := emit (FsWriteFile h fileName newContent) s in
    scheduleRemoveMemoryCache fileName s
  else s.

(** [handler.set] (lines 37-62).  The test on line 40 is
    [typeof isFileAccessing[fileName] !== "undefined"]: the branch that does
    the I/O is the one taken when the flag is set. *)
Definition handler_set (fileName : string) (content : value) (s : state) : state :=
  let s := if onSet cfg then emit (CallOnSet fileName content) s else s in
  if bool_decide (is_Some (isFileAccessing s !! fileName)) then
    let s := upd_isFileAccessing <[fileName := true]> s in
    if is_defined (prop (memoryCaches s) fileName) then
      writeFile fileName content s
    else
      readFile fileName (SetCallback content) s
  else
    upd_hasQueue <[fileName := content]> s.

(** [onFileAccessComplete] (lines 121-130).  [proxy[fileName] = ...] is a
    property assignment on the proxy, that is a call of the [set] trap.  The
    trap returns no value; the assignment sits in non-strict code, where a
    falsy trap result is ignored. *)
Definition onFileAccessComplete (fileName : string) (s : state) : state :=
  let s := upd_isFileAccessing (delete fileName) s in
  if is_defined (prop (hasQueue s) fileName) then
    let s := handler_set fileName (prop (hasQueue s) fileName) s in
    let s := upd_hasQueue <[fileName := Null]> s in
    upd_hasQueue (delete fileName) s
  else s.

(** The bodies of the three closures passed to [readFile], called by [fs] with
    [(error, data)]: [error] is [null] ([None]) on success. *)
Definition runReadCallback (callback : read_callback) (fileName : string)
    (error : option string) (data : value) (s : state) : outcome :=
  match callback with
  | SetCallback content =>
      let s := match error with
               | Some _ => upd_memoryCaches <[fileName := Null]> s
               | None => upd_memoryCaches <[fileName := data]> s
               end in
      Returned (writeFile fileName content s)
  | GetCallback p =>
      match error with
      | Some _ => Returned (resolve p Null s)
      | None =>
          let s := upd_memoryCaches <[fileName := data]> s in
          let s := scheduleRemoveMemoryCache fileName s in
          Returned (scheduleRemoveFileCache fileName s)
      end
  | EvictCallback =>
      match error with
      | Some _ => Returned s
      | None =>
          let s := emit (CallOnFileRemove fileName data) s in
          removeFile fileName s
      end
  end.

(** The callback [readFile] gives to [fs.readFile] (lines 98-102).  When the
    closure called on line 100 throws, line 101 does not run. *)
Definition completeRead (fileName : string) (callback : read_callback)
    (error : option string) (data : value) (s : state) : state :=
  let s := upd_isFileAccessing (delete fileName) s in
  match runReadCallback callback fileName error data s with
  | Returned s => onFileAccessComplete fileName s
  | Threw s => s
  end.

(** The callback [writeFile] gives to [fs.writeFile] (lines 112-116).  A
    [throw] leaves the callback at once: nothing after it runs. *)
Definition completeWrite (fileName : string) (error : option string) (s : state) : state :=
  match error with
  | Some e => emit (Throw e) s
  | None =>
      let s := onFileAccessComplete fileName s in
      scheduleRemoveFileCache fileName s
  end.

(** The callback [removeFile] hands to [fs.rm] (lines 174-177).  As [fs.rm]
    throws before it takes the callback, no run ever calls it. *)
Definition completeRm (fileName : string) (error : option string) (s : state) : state :=
  match error with
  | Some e => emit (Throw e) s
  | None => onFileAccessComplete fileName s
  end.

(** The closure queued by [scheduleRemoveMemoryCache] (lines 136-141). *)
Definition fireMemoryTimer (fileName : string) (s : state) : state :=
  let s := if onMemoryRemove cfg
           then emit (CallOnMemoryRemove fileName (prop (memoryCaches s) fileName)) s
           else s in
  let s := upd_memoryCaches <[fileName := Null]> s in
  let s := upd_memoryTimeLimits <[fileName := None]> s in
  upd_memoryCaches (delete fileName) s.

(** The closure queued by [scheduleRemoveFileCache] (lines 148-167).  When
    [removeFile] throws on line 162, lines 165-166 do not run. *)
Definition fireFileTimer (fileName : string) (s : state) : state :=
  let forget s :=
    let s := upd_fileTimeLimits <[fileName := None]> s in
    upd_fileTimeLimits (delete fileName) s in
  if bool_decide (isFileAccessing s !! fileName = None) then
    if onFileRemove cfg then forget (readFile fileName EvictCallback s)
    else
      match removeFile fileName s with
      | Returned s => forget s
      | Threw s => s
      end
  else forget s.

(** [handler.get] (lines 64-87): the promise returned, and the new state.  In
    the miss branch the executor runs (and calls [readFile]) before the
    promise is stored. *)
Definition handler_get (fileName : string) (s : state) : nat * state :=
  match promiseCaches s !! fileName with
  | Some p => (p, s)
  | None =>
      if is_defined (prop (memoryCaches s) fileName) then
        let '(p, s) := newPromise (Fulfilled (prop (memoryCaches s) fileName)) s in
        let s := upd_promiseCaches <[fileName := p]> s in
        let s := scheduleRemoveMemoryCache fileName s in
        (p, s)
      else
        let '(p, s) := newPromise Pending s in
        let s := readFile fileName (GetCallback p) s in
        let s := upd_promiseCaches <[fileName := p]> s in
        (p, s)
  end.

(** ** The event loop as a transition system *)

(** What can happen to a cache: a caller assigns or reads a property of the
    proxy, an [fs] call finishes, a timer comes due. *)
Inductive event : Type :=
| Assign (fileName : string) (content : value)
| Read (fileName : string)
| IoDone (op : nat) (error : option string) (data : value)
| TimerDue (h : nat).

(** An [fs] call finishes: it leaves the event loop and its callback runs.  A
    handle that is not in flight names no callback. *)
Definition complete (op : nat) (error : option string) (data : value) (s : state) : state :=
  match inflight s !! op with
  | Some (OpReadFile fileName callback) =>
      completeRead fileName callback error data (upd_inflight (delete op) s)
  | Some (OpWriteFile fileName _) =>
      completeWrite fileName error (upd_inflight (delete op) s)
  | Some (OpRm fileName) =>
      completeRm fileName error (upd_inflight (delete op) s)
  | None => s
  end.

(** A timer comes due: it leaves the queue and its closure runs. *)
Definition fire (h : nat) (s : state) : state :=
  match timers s !! h with
  | Some (MemoryTimer fileName _) => fireMemoryTimer fileName (upd_timers (delete h) s)
  | Some (FileTimer fileName _) => fireFileTimer fileName (upd_timers (delete h) s)
  | None => s
  end.

Definition step (s : state) (e : event) : state :=
  match e with
  | Assign fileName content => handler_set fileName content s
  | Read fileName => snd (handler_get fileName s)
  | IoDone op error data => complete op error data s
  | TimerDue h => fire h s
  end.

Definition run (es : list event) (s : state) : state := foldl step s es.

End Cache.

(** The timer queue after [if(slot) clearTimeout(slot)]. *)
Definition cleared (slot : option (option nat)) (q : gmap nat timer) : gmap nat timer :=
  match slot with
  | Some (Some h) => delete h q
  | _ => q
  end.

(** ** Well-formed timer state *)

(** Handles are allocated in increasing order, a memory slot only ever names
    a memory timer of its own key, and a file slot a file timer of its own
    key.  (A slot may name a timer that has fired or was cleared.) *)
Definition timers_wf (s : state) : Prop :=
  (∀ h t, timers s !! h = Some t → h < nextTimer s) ∧
  (∀ k h, memoryTimeLimits s !! k = Some (Some h) →
     h < nextTimer s ∧ ∀ t, timers s !! h = Some t → ∃ d, t = MemoryTimer k d) ∧
  (∀ k h, fileTimeLimits s !! k = Some (Some h) →
     h < nextTimer s ∧ ∀ t, timers s !! h = Some t → ∃ d, t = FileTimer k d).

(** The states a cache built with [cfg] can be in. *)
Definition reachable (cfg : config) (s : state) : Prop :=
  ∃ es, s = run cfg es init.

(** What draining the queue of [fileName] adds to the log: the [onSet] call
    of the [set] trap, when there is a queued value and an observer. *)
Definition drain_log (cfg : config) (fileName : string) (s : state) : list effect :=
  if is_defined (prop (hasQueue s) fileName) && onSet cfg
  then [CallOnSet fileName (prop (hasQueue s) fileName)]
  else [].

(** ** Keys that were touched *)

Definition op_key (o : io_op) : string :=
  match o with
  | OpReadFile fileName _ => fileName
  | OpWriteFile fileName _ => fileName
  | OpRm fileName => fileName
  end.

Definition timer_key (t : timer) : string :=
  match t with
  | MemoryTimer fileName _ => fileName
  | FileTimer fileName _ => fileName
  end.

(** Every key that is marked busy, has a memory entry, an operation in flight
    or a queued timer is a key of [P]. *)
Definition covers (P : gmap string nat) (s : state) : Prop :=
  (∀ k, is_Some (isFileAccessing s !! k) → is_Some (P !! k)) ∧
  (∀ k, is_Some (memoryCaches s !! k) → is_Some (P !! k)) ∧
  (∀ h o, inflight s !! h = Some o → is_Some (P !! op_key o)) ∧
  (∀ h t, timers s !! h = Some t → is_Some (P !! timer_key t)).

(** No promise holds data: each one is pending or resolved with [null]. *)
Definition no_data (s : state) : Prop :=
  ∀ p st, promises s !! p = Some st → st = Pending ∨ st = Fulfilled Null.

(** ** Keys and contents the callers use *)

(** The six objects of the closure are plain objects, so [o[k]] also finds
    what [Object.prototype] holds, and [o["__proto__"] = v] replaces the
    prototype.  A map lookup is what [o[k]] does for every other key. *)
Definition inherited_names : list string :=
  ["__proto__"; "constructor"; "hasOwnProperty"; "isPrototypeOf";
   "propertyIsEnumerable"; "toLocaleString"; "toString"; "valueOf";
   "__defineGetter__"; "__defineSetter__"; "__lookupGetter__";
   "__lookupSetter__"].

Definition own_key (k : string) : Prop := k ∉ inherited_names.

(** [fs.writeFile] takes a [Buffer]; it rejects [null] and [undefined] where
    it is called. *)
Definition is_buffer (v : value) : Prop := ∃ r, v = Buffer r.

(** A caller uses the cache as its JSDoc says: keys are file names that name
    no property of [Object.prototype], assigned contents are buffers.  What
    the file system and the timers do is not restricted. *)
Definition as_documented (e : event) : Prop :=
  match e with
  | Assign fileName content => own_key fileName ∧ is_buffer content
  | Read fileName => own_key fileName
  | IoDone _ _ _ => True
  | TimerDue _ => True
  end.

(** The states of a cache built with [cfg] and used as documented. *)
Definition in_use (cfg : config) (s : state) : Prop :=
  ∃ es, Forall as_documented es ∧ s = run cfg es init.

(** What the documented use leaves in the cache: every key held by the six
    objects, by an operation in flight, by a queued timer or by an effect
    names no property of [Object.prototype], and every content that is
    queued, waits to be written or was handed to [fs.writeFile] or to [onSet]
    is a buffer. *)
Definition documented_op (o : io_op) : Prop :=
  match o with
  | OpReadFile fileName (SetCallback content) => own_key fileName ∧ is_buffer content
  | OpReadFile fileName _ => own_key fileName
  | OpWriteFile fileName newContent => own_key fileName ∧ is_buffer newContent
  | OpRm fileName => own_key fileName
  end.

Definition documented_effect (e : effect) : Prop :=
  match e with
  | CallOnSet fileName content => own_key fileName ∧ is_buffer content
  | CallOnMemoryRemove fileName _ => own_key fileName
  | CallOnFileRemove fileName _ => own_key fileName
  | FsReadFile _ fileName => own_key fileName
  | FsWriteFile _ fileName data => own_key fileName ∧ is_buffer data
  | Throw _ => True
  end.

Record documented (s : state) : Prop := {
  doc_promiseCaches : map_Forall (λ k _, own_key k) (promiseCaches s);
  doc_memoryCaches : map_Forall (λ k _, own_key k) (memoryCaches s);
  doc_memoryTimeLimits : map_Forall (λ k _, own_key k) (memoryTimeLimits s);
  doc_fileTimeLimits : map_Forall (λ k _, own_key k) (fileTimeLimits s);
  doc_isFileAccessing : map_Forall (λ k _, own_key k) (isFileAccessing s);
  doc_hasQueue : map_Forall (λ k v, own_key k ∧ is_buffer v) (hasQueue s);
  doc_inflight : map_Forall (λ _ o, documented_op o) (inflight s);
  doc_timers : map_Forall (λ _ t, own_key (timer_key t)) (timers s);
  doc_log : Forall documented_effect (log s)
}.

(** The callback of an [fs] call runs to its end.  The callback of a write
    throws first when the write failed (line 113), as the one of [fs.rm] would
    (line 175).  Of the closures run by the callback of a read, the one of
    [handler.set] calls [fs.writeFile], which takes a buffer, and the one of
    the file timer calls [removeFile] when the read succeeded. *)
Definition callback_returns (o : io_op) (error : option string) : Prop :=
  match o with
  | OpReadFile _ (SetCallback content) => is_buffer content
  | OpReadFile _ (GetCallback _) => True
  | OpReadFile _ EvictCallback => is_Some error
  | OpWriteFile _ _ => error = None
  | OpRm _ => error = None
  end.

(** A queued file timer is the one its key's slot names, and it was queued
    with the configured [fileTTL]. *)
Definition file_timers_slotted (cfg : config) (s : state) : Prop :=
  ∀ h k d, timers s !! h = Some (FileTimer k d) →
    fileTimeLimits s !! k = Some (Some h) ∧ d = fileTTL cfg.


(** ** Scenarios *)

(** A cache with all three observers, and the TTLs of the specification's
    example scenario. *)
Definition observed : config :=
  {| cacheDir := "cache"; onSet := true; onMemoryRemove := true;
     memoryTTL := 100; onFileRemove := true; fileTTL := 300 |}.

(** A cache built with the defaults: no observer. *)
Definition quiet : config := default_config "cache".

(** With an [onFileRemove] observer: [get("a")] misses, the read succeeds
    (timers 0 and 1 are armed), the file timer comes due and starts the read
    that precedes the removal.  Key ["a"] is marked busy with that read (op 1)
    in flight, while its memory value and its memory timer are still there. *)
Definition evicting : state :=
  run observed [Read "a"; IoDone 0 None (Buffer 9); TimerDue 1] init.

(** [get("a")] misses and the read succeeds: the value is in memory and both
    timers (0 for memory, 1 for the file) are armed. *)
Definition loaded (cfg : config) : state :=
  run cfg [Read "a"; IoDone 0 None (Buffer 9)] init.

(** As [evicting], then [cache["a"] = b] starts a write (op 2) that succeeds
    and arms file timer 3, then the read made for [onFileRemove] succeeds:
    [removeFile] marks ["a"] busy and throws.  Nothing is in flight, ["a"] is
    marked busy and its file timer is queued. *)
Definition flagged : state :=
  run observed [Read "a"; IoDone 0 None (Buffer 9); TimerDue 1;
                Assign "a" (Buffer 1); IoDone 2 None Undefined;
                IoDone 1 None (Buffer 9)] init.


(** [get("a")] and then [cache["a"] = b] start two reads of ["a"]; the first
    completes and arms the timers while the second is still in flight. *)
Definition overlapping (cfg : config) : state :=
  run cfg [Read "a"; Assign "a" (Buffer 1); IoDone 0 None (Buffer 9)] init.

(** ** Per-key view *)

(** What the six objects of the closure hold for one key. *)
Definition slots (s : state) (k : string) :
    option nat * option value * option (option nat) * option (option nat)
    * option bool * option value :=
  (promiseCaches s !! k, memoryCaches s !! k, memoryTimeLimits s !! k,
   fileTimeLimits s !! k, isFileAccessing s !! k, hasQueue s !! k).

(** [s'] holds for every key other than [k] what [s] holds. *)
Definition others_kept (k : string) (s s' : state) : Prop :=
  ∀ k', k' ≠ k → slots s' k' = slots s k'.

(** The key an event is about: the key assigned or read, the key of the
    operation that finishes, the key of the timer that comes due. *)
Definition event_key (s : state) (e : event) : option string :=
  match e with
  | Assign fileName _ => Some fileName
  | Read fileName => Some fileName
  | IoDone op _ _ => op_key <$> inflight s !! op
  | TimerDue h => timer_key <$> timers s !! h
  end.

(** A queued memory timer is the one its key's slot names, and it was queued
    with the configured [memoryTTL]. *)
Definition memory_timers_slotted (cfg : config) (s : state) : Prop :=
  ∀ h k d, timers s !! h = Some (MemoryTimer k d) →
    memoryTimeLimits s !! k = Some (Some h) ∧ d = memoryTTL cfg.

(** The file an [fs] call in the log is about. *)
Definition fs_key (e : effect) : option string :=
  match e with
  | FsReadFile _ fileName => Some fileName
  | FsWriteFile _ fileName _ => Some fileName
  | _ => None
  end.

(** Every [fs] call in the log is about a key of [P]. *)
Definition log_covered (P : gmap string nat) (s : state) : Prop :=
  ∀ e k, e ∈ log s → fs_key e = Some k → is_Some (P !! k).

(** The value [writeFile] compares the new content with, when it runs at the
    end of the read that [handler.set] started. *)
Definition read_back (error : option string) (data : value) : value :=
  match error with
  | Some _ => Null
  | None => data
  end.

(** [s'] still has every queued timer of [s] that belongs to a key other than
    [k]. *)
Definition timers_kept (k : string) (s s' : state) : Prop :=
  ∀ h t, timers s !! h = Some t → timer_key t ≠ k → timers s' !! h = Some t.

(** * Properties *)

#[global] Arguments scheduleRemoveMemoryCache : simpl never.
#[global] Arguments scheduleRemoveFileCache : simpl never.
#[global] Arguments readFile : simpl never.
#[global] Arguments removeFile : simpl never.
#[global] Arguments writeFile : simpl never.
#[global] Arguments handler_set : simpl never.
#[global] Arguments handler_get : simpl never.
#[global] Arguments onFileAccessComplete : simpl never.
#[global] Arguments runReadCallback : simpl never.
#[global] Arguments complete : simpl never.
#[global] Arguments fire : simpl never.
#[global] Arguments resolve : simpl never.

(** ** Reading a property *)

Lemma prop_insert_eq (o : gmap string value) k v : prop (<[k := v]> o) k = v.
Proof. unfold prop. by rewrite lookup_insert_eq. Qed.

Lemma prop_delete_eq (o : gmap string value) k : prop (delete k o) k = Undefined.
Proof. unfold prop. by rewrite lookup_delete_eq. Qed.

Lemma prop_undefined_iff (o : gmap string value) k :
  is_defined (prop o k) = false ↔ prop o k = Undefined.
Proof. destruct (prop o k); simpl; split; congruence. Qed.

Lemma strict_neq_true a b : a ≠ b → strict_neq a b = true.
Proof. intros H. unfold strict_neq. by rewrite bool_decide_eq_true_2. Qed.

Lemma strict_neq_refl a : strict_neq a a = false.
Proof. unfold strict_neq. by rewrite bool_decide_eq_false_2; [|intros H]. Qed.

(** ** The two branches of [handler.set] *)

Section Branches.

Variable cfg : config.

(** With the busy flag clear, the [set] trap only stores the value in
    [hasQueue] (after the optional observer call). *)
Lemma handler_set_idle k v s :
  isFileAccessing s !! k = None →
  handler_set cfg k v s =
    upd_hasQueue <[k := v]> (if onSet cfg then emit (CallOnSet k v) s else s).
Proof.
  intros Hidle. unfold handler_set.
  destruct (onSet cfg); simpl; rewrite Hidle.
  all: rewrite bool_decide_eq_false_2; [reflexivity | by intros [? ?]].
Qed.

(** With the busy flag set and no memory value, it starts a read. *)
Lemma handler_set_busy_unknown k v s :
  is_Some (isFileAccessing s !! k) →
  prop (memoryCaches s) k = Undefined →
  handler_set cfg k v s =
    readFile k (SetCallback v)
      (upd_isFileAccessing <[k := true]>
         (if onSet cfg then emit (CallOnSet k v) s else s)).
Proof.
  intros Hbusy Hmem. unfold handler_set.
  destruct (onSet cfg); simpl; rewrite bool_decide_eq_true_2 by done.
  all: by rewrite Hmem.
Qed.

(** With the busy flag set and a memory value, it goes to [writeFile]. *)
Lemma handler_set_busy_known k v s :
  is_Some (isFileAccessing s !! k) →
  is_defined (prop (memoryCaches s) k) = true →
  handler_set cfg k v s =
    writeFile cfg k v
      (upd_isFileAccessing <[k := true]>
         (if onSet cfg then emit (CallOnSet k v) s else s)).
Proof.
  intros Hbusy Hmem. unfold handler_set.
  destruct (onSet cfg); simpl; rewrite bool_decide_eq_true_2 by done.
  all: by rewrite Hmem.
Qed.

(** [onFileAccessComplete] clears the flag before it looks at the queue, so
    the [set] trap it calls always takes the idle branch: the queued value is
    written back to [hasQueue] and then deleted. *)
Lemma onFileAccessComplete_eq k s :
  onFileAccessComplete cfg k s =
    let s1 := upd_isFileAccessing (delete k) s in
    if is_defined (prop (hasQueue s) k) then
      upd_hasQueue (delete k)
        (if onSet cfg then emit (CallOnSet k (prop (hasQueue s) k)) s1 else s1)
    else s1.
Proof.
  unfold onFileAccessComplete. simpl.
  destruct (is_defined (prop (hasQueue s) k)) eqn:Hq; [|done].
  rewrite handler_set_idle by (simpl; apply lookup_delete_eq).
  destruct (onSet cfg); unfold upd_hasQueue; simpl; f_equal;
    by rewrite delete_insert_eq, delete_insert_eq.
Qed.

Lemma onFileAccessComplete_log k s :
  log (onFileAccessComplete cfg k s) = log s ++ drain_log cfg k s.
Proof.
  rewrite onFileAccessComplete_eq. unfold drain_log. simpl.
  destruct (is_defined (prop (hasQueue s) k)), (onSet cfg); simpl;
    by rewrite ?app_nil_r.
Qed.

Lemma onFileAccessComplete_inflight k s :
  inflight (onFileAccessComplete cfg k s) = inflight s.
Proof.
  rewrite onFileAccessComplete_eq. simpl.
  by destruct (is_defined (prop (hasQueue s) k)), (onSet cfg).
Qed.

Lemma onFileAccessComplete_idle k s :
  isFileAccessing (onFileAccessComplete cfg k s) !! k = None.
Proof.
  rewrite onFileAccessComplete_eq. simpl.
  destruct (is_defined (prop (hasQueue s) k)), (onSet cfg); simpl;
    apply lookup_delete_eq.
Qed.

Lemma onFileAccessComplete_queue k s :
  prop (hasQueue (onFileAccessComplete cfg k s)) k = Undefined.
Proof.
  rewrite onFileAccessComplete_eq. simpl.
  destruct (is_defined (prop (hasQueue s) k)) eqn:Hq.
  - destruct (onSet cfg); simpl; apply prop_delete_eq.
  - simpl. by apply prop_undefined_iff.
Qed.

Lemma onFileAccessComplete_memoryCaches k s :
  memoryCaches (onFileAccessComplete cfg k s) = memoryCaches s.
Proof.
  rewrite onFileAccessComplete_eq. simpl.
  by destruct (is_defined (prop (hasQueue s) k)), (onSet cfg).
Qed.

Lemma onFileAccessComplete_promises k s :
  promises (onFileAccessComplete cfg k s) = promises s.
Proof.
  rewrite onFileAccessComplete_eq. simpl.
  by destruct (is_defined (prop (hasQueue s) k)), (onSet cfg).
Qed.

Lemma onFileAccessComplete_timer_fields k s :
  timers (onFileAccessComplete cfg k s) = timers s ∧
  nextTimer (onFileAccessComplete cfg k s) = nextTimer s ∧
  memoryTimeLimits (onFileAccessComplete cfg k s) = memoryTimeLimits s ∧
  fileTimeLimits (onFileAccessComplete cfg k s) = fileTimeLimits s.
Proof.
  rewrite onFileAccessComplete_eq. simpl.
  by destruct (is_defined (prop (hasQueue s) k)), (onSet cfg).
Qed.

Lemma onFileAccessComplete_promiseCaches k s :
  promiseCaches (onFileAccessComplete cfg k s) = promiseCaches s.
Proof.
  rewrite onFileAccessComplete_eq. simpl.
  by destruct (is_defined (prop (hasQueue s) k)), (onSet cfg).
Qed.

End Branches.

(** ** [promiseCaches] is written by [handler.get] only *)

Section PromiseCaches.

Variable cfg : config.

Ltac leaf :=
  intros; unfold scheduleRemoveMemoryCache, scheduleRemoveFileCache, readFile,
    removeFile, resolve, clearIfSet, clearTimeout, setTimeout, issue;
  simpl; repeat case_match; reflexivity.

Lemma scheduleRemoveMemoryCache_promiseCaches k s :
  promiseCaches (scheduleRemoveMemoryCache cfg k s) = promiseCaches s.
Proof. leaf. Qed.

Lemma scheduleRemoveFileCache_promiseCaches k s :
  promiseCaches (scheduleRemoveFileCache cfg k s) = promiseCaches s.
Proof. leaf. Qed.

Lemma readFile_promiseCaches k cb s :
  promiseCaches (readFile k cb s) = promiseCaches s.
Proof. leaf. Qed.

Lemma removeFile_promiseCaches k s :
  promiseCaches (state_of (removeFile k s)) = promiseCaches s.
Proof. reflexivity. Qed.

Lemma resolve_promiseCaches p v s :
  promiseCaches (resolve p v s) = promiseCaches s.
Proof. leaf. Qed.

Lemma writeFile_promiseCaches k v s :
  promiseCaches (writeFile cfg k v s) = promiseCaches s.
Proof.
  unfold writeFile. case_match; [|done].
  cbn. by rewrite scheduleRemoveMemoryCache_promiseCaches.
Qed.

Lemma handler_set_promiseCaches k v s :
  promiseCaches (handler_set cfg k v s) = promiseCaches s.
Proof.
  unfold handler_set. repeat case_match;
    rewrite ?writeFile_promiseCaches, ?readFile_promiseCaches; reflexivity.
Qed.

Lemma runReadCallback_promiseCaches cb k error data s :
  promiseCaches (state_of (runReadCallback cfg cb k error data s)) = promiseCaches s.
Proof.
  unfold runReadCallback. repeat case_match; cbn [state_of];
    rewrite ?writeFile_promiseCaches, ?scheduleRemoveFileCache_promiseCaches,
      ?scheduleRemoveMemoryCache_promiseCaches, ?resolve_promiseCaches,
      ?removeFile_promiseCaches; reflexivity.
Qed.

(** What [completeRead] leaves behind, whichever way the closure ended. *)
Lemma completeRead_cases k cb error data s :
  let o := runReadCallback cfg cb k error data (upd_isFileAccessing (delete k) s) in
  completeRead cfg k cb error data s = state_of o ∨
  completeRead cfg k cb error data s = onFileAccessComplete cfg k (state_of o).
Proof.
  unfold completeRead. cbn zeta. destruct (runReadCallback _ _ _ _ _ _); cbn; auto.
Qed.

(** A property that the closure establishes and [onFileAccessComplete] keeps
    holds after [completeRead]. *)
Lemma completeRead_keeps (P : state → Prop) k cb error data s :
  P (state_of (runReadCallback cfg cb k error data (upd_isFileAccessing (delete k) s))) →
  (∀ s', P s' → P (onFileAccessComplete cfg k s')) →
  P (completeRead cfg k cb error data s).
Proof.
  intros Hcb Hdone.
  destruct (completeRead_cases k cb error data s) as [-> | ->]; auto.
Qed.

Lemma completeRead_promiseCaches k cb error data s :
  promiseCaches (completeRead cfg k cb error data s) = promiseCaches s.
Proof.
  destruct (completeRead_cases k cb error data s) as [-> | ->];
    rewrite ?onFileAccessComplete_promiseCaches, runReadCallback_promiseCaches;
    reflexivity.
Qed.

Lemma complete_promiseCaches op error data s :
  promiseCaches (complete cfg op error data s) = promiseCaches s.
Proof.
  unfold complete, completeWrite, completeRm.
  repeat case_match;
    rewrite ?completeRead_promiseCaches, ?scheduleRemoveFileCache_promiseCaches,
      ?onFileAccessComplete_promiseCaches;
    reflexivity.
Qed.

Lemma fire_promiseCaches h s :
  promiseCaches (fire cfg h s) = promiseCaches s.
Proof.
  unfold fire, fireMemoryTimer, fireFileTimer, removeFile.
  repeat case_match;
    cbn; rewrite ?readFile_promiseCaches;
    reflexivity.
Qed.

(** [handler.get] stores a promise only where none is stored. *)
Lemma handler_get_promiseCaches k k' p s :
  promiseCaches s !! k = Some p →
  promiseCaches (snd (handler_get cfg k' s)) !! k = Some p.
Proof.
  intros Hp. unfold handler_get.
  destruct (promiseCaches s !! k') as [q|] eqn:Hk'; [done|].
  assert (k' ≠ k) by congruence.
  case_match; cbn.
  - rewrite scheduleRemoveMemoryCache_promiseCaches. cbn.
    by rewrite lookup_insert_ne.
  - by rewrite lookup_insert_ne.
Qed.

Lemma step_promiseCaches e k p s :
  promiseCaches s !! k = Some p →
  promiseCaches (step cfg s e) !! k = Some p.
Proof.
  intros Hp. destruct e; cbn.
  - by rewrite handler_set_promiseCaches.
  - by apply handler_get_promiseCaches.
  - by rewrite complete_promiseCaches.
  - by rewrite fire_promiseCaches.
Qed.

Lemma run_promiseCaches es k p s :
  promiseCaches s !! k = Some p →
  promiseCaches (run cfg es s) !! k = Some p.
Proof.
  revert s. induction es as [|e es IH]; intros s Hp; [done|].
  simpl. apply IH. by apply step_promiseCaches.
Qed.

End PromiseCaches.

(** ** Timers *)

Section Timers.

Variable cfg : config.

Lemma cleared_lookup_Some slot (q : gmap nat timer) h t :
  cleared slot q !! h = Some t → q !! h = Some t.
Proof.
  destruct slot as [[h0|]|]; simpl; [|done..].
  rewrite lookup_delete. case_decide; [done|]. done.
Qed.

Lemma cleared_lookup_ne (q : gmap nat timer) h0 h :
  h0 ≠ h → cleared (Some (Some h0)) q !! h = q !! h.
Proof. intros. simpl. by rewrite lookup_delete_ne. Qed.

Lemma scheduleRemoveMemoryCache_timers k s :
  timers (scheduleRemoveMemoryCache cfg k s) =
    <[nextTimer s := MemoryTimer k (memoryTTL cfg)]>
      (cleared (memoryTimeLimits s !! k) (timers s)) ∧
  nextTimer (scheduleRemoveMemoryCache cfg k s) = S (nextTimer s) ∧
  memoryTimeLimits (scheduleRemoveMemoryCache cfg k s) =
    <[k := Some (nextTimer s)]> (memoryTimeLimits s) ∧
  fileTimeLimits (scheduleRemoveMemoryCache cfg k s) = fileTimeLimits s.
Proof.
  unfold scheduleRemoveMemoryCache, clearIfSet, clearTimeout, setTimeout.
  destruct (memoryTimeLimits s !! k) as [[h|]|]; done.
Qed.

Lemma scheduleRemoveFileCache_timers k s :
  timers (scheduleRemoveFileCache cfg k s) =
    <[nextTimer s := FileTimer k (fileTTL cfg)]>
      (cleared (fileTimeLimits s !! k) (timers s)) ∧
  nextTimer (scheduleRemoveFileCache cfg k s) = S (nextTimer s) ∧
  memoryTimeLimits (scheduleRemoveFileCache cfg k s) = memoryTimeLimits s ∧
  fileTimeLimits (scheduleRemoveFileCache cfg k s) =
    <[k := Some (nextTimer s)]> (fileTimeLimits s).
Proof.
  unfold scheduleRemoveFileCache, clearIfSet, clearTimeout, setTimeout.
  destruct (fileTimeLimits s !! k) as [[h|]|]; done.
Qed.

(** Scheduling touches nothing but the timer fields. *)
Lemma scheduleRemoveMemoryCache_rest k s :
  let s' := scheduleRemoveMemoryCache cfg k s in
  memoryCaches s' = memoryCaches s ∧ isFileAccessing s' = isFileAccessing s ∧
  hasQueue s' = hasQueue s ∧ promises s' = promises s ∧
  inflight s' = inflight s ∧ nextOp s' = nextOp s ∧ log s' = log s.
Proof.
  unfold scheduleRemoveMemoryCache, clearIfSet, clearTimeout, setTimeout.
  destruct (memoryTimeLimits s !! k) as [[h|]|]; done.
Qed.

Lemma scheduleRemoveFileCache_rest k s :
  let s' := scheduleRemoveFileCache cfg k s in
  memoryCaches s' = memoryCaches s ∧ isFileAccessing s' = isFileAccessing s ∧
  hasQueue s' = hasQueue s ∧ promises s' = promises s ∧
  inflight s' = inflight s ∧ nextOp s' = nextOp s ∧ log s' = log s.
Proof.
  unfold scheduleRemoveFileCache, clearIfSet, clearTimeout, setTimeout.
  destruct (fileTimeLimits s !! k) as [[h|]|]; done.
Qed.

(** [timers_wf] reads the four timer fields only. *)
Lemma timers_wf_fields s s' :
  timers s' = timers s → nextTimer s' = nextTimer s →
  memoryTimeLimits s' = memoryTimeLimits s →
  fileTimeLimits s' = fileTimeLimits s →
  timers_wf s → timers_wf s'.
Proof. unfold timers_wf. intros -> -> -> ->. done. Qed.

Lemma upd_promiseCaches_wf f s : timers_wf s → timers_wf (upd_promiseCaches f s).
Proof. by apply timers_wf_fields. Qed.

Lemma timers_wf_init : timers_wf init.
Proof.
  unfold timers_wf, init. cbn [timers memoryTimeLimits fileTimeLimits nextTimer].
  split; [|split]; intros ? ? H; by rewrite lookup_empty in H.
Qed.

Lemma scheduleRemoveMemoryCache_wf k s :
  timers_wf s → timers_wf (scheduleRemoveMemoryCache cfg k s).
Proof.
  intros (Hq & Hm & Hf).
  destruct (scheduleRemoveMemoryCache_timers k s) as (Et & En & Em & Ef).
  unfold timers_wf. rewrite Et, En, Em, Ef. split; [|split].
  - intros h t. rewrite lookup_insert. case_decide; [lia|].
    intros Ht%cleared_lookup_Some. apply Hq in Ht. lia.
  - intros k' h. rewrite lookup_insert. case_decide as Hk.
    + subst k'. intros [= <-]. split; [lia|]. intros t.
      rewrite lookup_insert_eq. intros [= <-]. eauto.
    + intros Hs. destruct (Hm _ _ Hs) as [Hlt Hty]. split; [lia|].
      intros t. rewrite lookup_insert_ne by lia.
      intros Ht%cleared_lookup_Some. eauto.
  - intros k' h Hs. destruct (Hf _ _ Hs) as [Hlt Hty]. split; [lia|].
    intros t. rewrite lookup_insert_ne by lia.
    intros Ht%cleared_lookup_Some. eauto.
Qed.

Lemma scheduleRemoveFileCache_wf k s :
  timers_wf s → timers_wf (scheduleRemoveFileCache cfg k s).
Proof.
  intros (Hq & Hm & Hf).
  destruct (scheduleRemoveFileCache_timers k s) as (Et & En & Em & Ef).
  unfold timers_wf. rewrite Et, En, Em, Ef. split; [|split].
  - intros h t. rewrite lookup_insert. case_decide; [lia|].
    intros Ht%cleared_lookup_Some. apply Hq in Ht. lia.
  - intros k' h Hs. destruct (Hm _ _ Hs) as [Hlt Hty]. split; [lia|].
    intros t. rewrite lookup_insert_ne by lia.
    intros Ht%cleared_lookup_Some. eauto.
  - intros k' h. rewrite lookup_insert. case_decide as Hk.
    + subst k'. intros [= <-]. split; [lia|]. intros t.
      rewrite lookup_insert_eq. intros [= <-]. eauto.
    + intros Hs. destruct (Hf _ _ Hs) as [Hlt Hty]. split; [lia|].
      intros t. rewrite lookup_insert_ne by lia.
      intros Ht%cleared_lookup_Some. eauto.
Qed.

Lemma readFile_wf k cb s : timers_wf s → timers_wf (readFile k cb s).
Proof. by apply timers_wf_fields. Qed.

Lemma removeFile_wf k s : timers_wf s → timers_wf (state_of (removeFile k s)).
Proof. by apply timers_wf_fields. Qed.

Lemma resolve_wf p v s : timers_wf s → timers_wf (resolve p v s).
Proof. unfold resolve. repeat case_match; done. Qed.

Lemma writeFile_wf k v s : timers_wf s → timers_wf (writeFile cfg k v s).
Proof.
  intros Hwf. unfold writeFile. case_match; [|done].
  cbn. by apply scheduleRemoveMemoryCache_wf.
Qed.

Lemma handler_set_wf k v s : timers_wf s → timers_wf (handler_set cfg k v s).
Proof.
  intros Hwf. unfold handler_set.
  repeat case_match; try apply writeFile_wf; try apply readFile_wf; done.
Qed.

Lemma onFileAccessComplete_wf k s :
  timers_wf s → timers_wf (onFileAccessComplete cfg k s).
Proof.
  destruct (onFileAccessComplete_timer_fields cfg k s) as (? & ? & ? & ?).
  by apply timers_wf_fields.
Qed.

Lemma runReadCallback_wf cb k error data s :
  timers_wf s → timers_wf (state_of (runReadCallback cfg cb k error data s)).
Proof.
  intros Hwf. unfold runReadCallback. repeat case_match; cbn [state_of].
  - by apply writeFile_wf.
  - by apply writeFile_wf.
  - by apply resolve_wf.
  - by apply scheduleRemoveFileCache_wf, scheduleRemoveMemoryCache_wf.
  - done.
  - by apply removeFile_wf.
Qed.

Lemma complete_wf op error data s :
  timers_wf s → timers_wf (complete cfg op error data s).
Proof.
  intros Hwf. unfold complete, completeWrite, completeRm.
  repeat case_match; try done.
  - apply completeRead_keeps; [by apply runReadCallback_wf|].
    apply onFileAccessComplete_wf.
  - by apply scheduleRemoveFileCache_wf, onFileAccessComplete_wf.
  - by apply onFileAccessComplete_wf.
Qed.

Lemma fire_wf h s : timers_wf s → timers_wf (fire cfg h s).
Proof.
  intros (Hq & Hm & Hf). unfold fire.
  destruct (timers s !! h) as [[k d|k d]|] eqn:Hh; [| |done].
  - unfold fireMemoryTimer, timers_wf.
    destruct (onMemoryRemove cfg); cbn.
    all: split; [|split].
    all: try (intros h' t Ht; apply lookup_delete_Some in Ht as [_ Ht]; eauto).
    all: try (intros k' h'; rewrite lookup_insert; case_decide; [done|];
              intros Hs; destruct (Hm _ _ Hs) as [Hlt Hty]; split; [done|];
              intros t Ht; apply lookup_delete_Some in Ht as [_ Ht]; eauto).
    all: intros k' h' Hs; destruct (Hf _ _ Hs) as [Hlt Hty]; split; [done|];
         intros t Ht; apply lookup_delete_Some in Ht as [_ Ht]; eauto.
  - unfold fireFileTimer.
    set (s1 := upd_timers (delete h) s).
    assert (Hwf1 : timers_wf s1).
    { unfold timers_wf, s1. cbn. split; [|split].
      - intros h' t Ht. apply lookup_delete_Some in Ht as [_ Ht]. eauto.
      - intros k' h' Hs. destruct (Hm _ _ Hs) as [Hlt Hty]. split; [done|].
        intros t Ht. apply lookup_delete_Some in Ht as [_ Ht]. eauto.
      - intros k' h' Hs. destruct (Hf _ _ Hs) as [Hlt Hty]. split; [done|].
        intros t Ht. apply lookup_delete_Some in Ht as [_ Ht]. eauto. }
    assert (Hwf2 : ∀ s2, timers_wf s2 →
      timers_wf (upd_fileTimeLimits (delete k) (upd_fileTimeLimits <[k := None]> s2))).
    { intros s2 (Hq2 & Hm2 & Hf2). unfold timers_wf. cbn.
      split; [done|]. split; [done|].
      intros k' h'. rewrite delete_insert_eq.
      intros Hs. apply lookup_delete_Some in Hs as [_ Hs]. eauto. }
    case_match; [|by apply Hwf2].
    case_match; [by apply Hwf2, readFile_wf|].
    by apply (removeFile_wf k s1).
Qed.

Lemma handler_get_wf k s : timers_wf s → timers_wf (snd (handler_get cfg k s)).
Proof.
  intros Hwf. unfold handler_get, newPromise.
  destruct (promiseCaches s !! k); [done|].
  destruct (is_defined (prop (memoryCaches s) k)); cbn.
  - by apply scheduleRemoveMemoryCache_wf.
  - done.
Qed.

Lemma step_wf e s : timers_wf s → timers_wf (step cfg s e).
Proof.
  intros Hwf. destruct e; cbn.
  - by apply handler_set_wf.
  - by apply handler_get_wf.
  - by apply complete_wf.
  - by apply fire_wf.
Qed.

Lemma run_wf es s : timers_wf s → timers_wf (run cfg es s).
Proof.
  revert s. induction es as [|e es IH]; intros s Hwf; [done|].
  cbn. apply IH. by apply step_wf.
Qed.

Lemma reachable_wf s : reachable cfg s → timers_wf s.
Proof. intros [es ->]. apply run_wf, timers_wf_init. Qed.

End Timers.

(** ** Branch equations of [handler.get] and of the completions *)

Section Equations.

Variable cfg : config.

Lemma handler_get_stored k p s :
  promiseCaches s !! k = Some p → handler_get cfg k s = (p, s).
Proof. intros Hp. unfold handler_get. by rewrite Hp. Qed.

Lemma handler_get_hit k s :
  promiseCaches s !! k = None →
  is_defined (prop (memoryCaches s) k) = true →
  handler_get cfg k s =
    (nextPromise s,
     scheduleRemoveMemoryCache cfg k
       (upd_promiseCaches <[k := nextPromise s]>
          (bump_nextPromise
             (upd_promises <[nextPromise s := Fulfilled (prop (memoryCaches s) k)]> s)))).
Proof. intros Hp Hm. unfold handler_get. by rewrite Hp, Hm. Qed.

Lemma handler_get_miss k s :
  promiseCaches s !! k = None →
  prop (memoryCaches s) k = Undefined →
  handler_get cfg k s =
    (nextPromise s,
     upd_promiseCaches <[k := nextPromise s]>
       (readFile k (GetCallback (nextPromise s))
          (bump_nextPromise (upd_promises <[nextPromise s := Pending]> s)))).
Proof. intros Hp Hm. unfold handler_get. by rewrite Hp, Hm. Qed.

(** Every closure passed to [readFile] returns, except the one of the file
    timer on a read that succeeded: that one calls [removeFile]. *)
Lemma complete_read op k cb error data s :
  inflight s !! op = Some (OpReadFile k cb) →
  (cb = EvictCallback → error ≠ None) →
  complete cfg op error data s =
    onFileAccessComplete cfg k
      (state_of (runReadCallback cfg cb k error data
         (upd_isFileAccessing (delete k) (upd_inflight (delete op) s)))).
Proof.
  intros Hop Hcb. unfold complete, completeRead. rewrite Hop.
  unfold runReadCallback. destruct cb, error; try reflexivity.
  by destruct Hcb.
Qed.

(** The read made for [onFileRemove] succeeds: the observer is called,
    [removeFile] marks the key busy and throws, and line 101 is not reached. *)
Lemma complete_evict_read op k data s :
  inflight s !! op = Some (OpReadFile k EvictCallback) →
  complete cfg op None data s =
    emit (Throw "ERR_INVALID_ARG_TYPE")
      (upd_isFileAccessing <[k := true]>
         (emit (CallOnFileRemove k data)
            (upd_isFileAccessing (delete k) (upd_inflight (delete op) s)))).
Proof. intros Hop. unfold complete. by rewrite Hop. Qed.

Lemma complete_write op k v error data s :
  inflight s !! op = Some (OpWriteFile k v) →
  complete cfg op error data s =
    completeWrite cfg k error (upd_inflight (delete op) s).
Proof. intros Hop. unfold complete. by rewrite Hop. Qed.

Lemma readFile_eq k cb s :
  readFile k cb s =
    emit (FsReadFile (nextOp s) k)
      (bump_nextOp
         (upd_inflight <[nextOp s := OpReadFile k cb]>
            (upd_isFileAccessing <[k := true]> s))).
Proof. reflexivity. Qed.

Lemma removeFile_eq k s :
  removeFile k s =
    Threw (emit (Throw "ERR_INVALID_ARG_TYPE") (upd_isFileAccessing <[k := true]> s)).
Proof. reflexivity. Qed.


(** After [writeFile] the memory value of the key is the new content, whether
    or not a write was issued. *)
Lemma writeFile_memory k v s : prop (memoryCaches (writeFile cfg k v s)) k = v.
Proof.
  unfold writeFile. destruct (strict_neq (prop (memoryCaches s) k) v) eqn:Hne.
  - cbn.
    match goal with |- context [scheduleRemoveMemoryCache cfg k ?s0] =>
      destruct (scheduleRemoveMemoryCache_rest cfg k s0) as (Hc & _) end.
    rewrite Hc. cbn. apply prop_insert_eq.
  - unfold strict_neq in Hne. apply bool_decide_eq_false in Hne.
    by destruct (decide (prop (memoryCaches s) k = v)).
Qed.

Lemma writeFile_promises k v s : promises (writeFile cfg k v s) = promises s.
Proof.
  unfold writeFile. case_match; [|done]. cbn.
  match goal with |- context [scheduleRemoveMemoryCache cfg k ?s0] =>
    destruct (scheduleRemoveMemoryCache_rest cfg k s0) as (_ & _ & _ & Hp & _) end.
  by rewrite Hp.
Qed.

Lemma handler_set_promises k v s : promises (handler_set cfg k v s) = promises s.
Proof.
  unfold handler_set.
  repeat case_match; rewrite ?writeFile_promises, ?readFile_eq; reflexivity.
Qed.

(** The promise made by the memory-hit branch of [handler.get]. *)
Lemma handler_get_hit_promise k s :
  promiseCaches s !! k = None →
  is_defined (prop (memoryCaches s) k) = true →
  promises (snd (handler_get cfg k s)) !! fst (handler_get cfg k s) =
    Some (Fulfilled (prop (memoryCaches s) k)).
Proof.
  intros Hp Hm. rewrite handler_get_hit by done. cbn [fst snd].
  match goal with |- context [scheduleRemoveMemoryCache cfg k ?s0] =>
    destruct (scheduleRemoveMemoryCache_rest cfg k s0) as (_ & _ & _ & Hpr & _) end.
  rewrite Hpr. cbn. apply lookup_insert_eq.
Qed.

End Equations.

(** * Reachable states *)

(** ** A key is first touched by [handler.get] *)

Section Touched.

Variable cfg : config.
Variable P : gmap string nat.

Lemma covers_flag k s :
  is_Some (P !! k) → covers P s → covers P (upd_isFileAccessing <[k := true]> s).
Proof.
  intros Hk (Hb & Hm & Hi & Ht). repeat split; try done.
  intros k'. cbn. rewrite lookup_insert. case_decide; [by subst|]. apply Hb.
Qed.

Lemma covers_unflag k s :
  covers P s → covers P (upd_isFileAccessing (delete k) s).
Proof.
  intros (Hb & Hm & Hi & Ht). repeat split; try done.
  intros k'. cbn. rewrite lookup_delete. case_decide; [by intros [? ?]|]. apply Hb.
Qed.

Lemma covers_memory k v s :
  is_Some (P !! k) → covers P s → covers P (upd_memoryCaches <[k := v]> s).
Proof.
  intros Hk (Hb & Hm & Hi & Ht). repeat split; try done.
  intros k'. cbn. rewrite lookup_insert. case_decide; [by subst|]. apply Hm.
Qed.

Lemma covers_forget k s :
  covers P s → covers P (upd_memoryCaches (delete k) s).
Proof.
  intros (Hb & Hm & Hi & Ht). repeat split; try done.
  intros k'. cbn. rewrite lookup_delete. case_decide; [by intros [? ?]|]. apply Hm.
Qed.

Lemma covers_issue o s :
  is_Some (P !! op_key o) → covers P s → covers P (snd (issue o s)).
Proof.
  intros Hk (Hb & Hm & Hi & Ht). repeat split; try done.
  intros h o'. cbn. rewrite lookup_insert. case_decide; [by intros [= <-]|]. apply Hi.
Qed.

Lemma covers_done op s :
  covers P s → covers P (upd_inflight (delete op) s).
Proof.
  intros (Hb & Hm & Hi & Ht). repeat split; try done.
  intros h o. cbn. rewrite lookup_delete. case_decide; [done|]. apply Hi.
Qed.

Lemma covers_clearIfSet slot s : covers P s → covers P (clearIfSet slot s).
Proof.
  intros (Hb & Hm & Hi & Ht). destruct slot as [[h0|]|]; [|done..].
  repeat split; try done.
  intros h t. cbn. rewrite lookup_delete. case_decide; [done|]. apply Ht.
Qed.

Lemma covers_timer_gone h s : covers P s → covers P (upd_timers (delete h) s).
Proof. apply (covers_clearIfSet (Some (Some h))). Qed.

Lemma covers_setTimeout mk d s :
  is_Some (P !! timer_key (mk d)) → covers P s → covers P (snd (setTimeout mk d s)).
Proof.
  intros Hk (Hb & Hm & Hi & Ht). repeat split; try done.
  intros h t. cbn. rewrite lookup_insert. case_decide; [by intros [= <-]|]. apply Ht.
Qed.

Lemma scheduleRemoveMemoryCache_covers k s :
  is_Some (P !! k) → covers P s → covers P (scheduleRemoveMemoryCache cfg k s).
Proof.
  intros Hk Hc. unfold scheduleRemoveMemoryCache.
  apply (covers_setTimeout (MemoryTimer k)); [done|]. by apply covers_clearIfSet.
Qed.

Lemma scheduleRemoveFileCache_covers k s :
  is_Some (P !! k) → covers P s → covers P (scheduleRemoveFileCache cfg k s).
Proof.
  intros Hk Hc. unfold scheduleRemoveFileCache.
  apply (covers_setTimeout (FileTimer k)); [done|]. by apply covers_clearIfSet.
Qed.

Lemma readFile_covers k cb s :
  is_Some (P !! k) → covers P s → covers P (readFile k cb s).
Proof.
  intros Hk Hc. unfold readFile.
  apply (covers_issue (OpReadFile k cb)); [done|]. by apply covers_flag.
Qed.

Lemma removeFile_covers k s :
  is_Some (P !! k) → covers P s → covers P (state_of (removeFile k s)).
Proof. intros Hk Hc. by apply (covers_flag k s). Qed.

Lemma writeFile_covers k v s :
  is_Some (P !! k) → covers P s → covers P (writeFile cfg k v s).
Proof.
  intros Hk Hc. unfold writeFile. case_match; [|done].
  apply scheduleRemoveMemoryCache_covers; [done|].
  apply (covers_issue (OpWriteFile k v)); [done|].
  by apply covers_flag, covers_memory.
Qed.

Lemma onFileAccessComplete_covers k s :
  covers P s → covers P (onFileAccessComplete cfg k s).
Proof.
  intros Hc. rewrite onFileAccessComplete_eq. cbn.
  destruct (is_defined (prop (hasQueue s) k)), (onSet cfg);
    by apply (covers_unflag k s).
Qed.

Lemma runReadCallback_covers cb k error data s :
  is_Some (P !! k) → covers P s →
  covers P (state_of (runReadCallback cfg cb k error data s)).
Proof.
  intros Hk Hc. unfold runReadCallback.
  destruct cb as [content|p|], error as [e|]; cbn [state_of].
  - by apply writeFile_covers, covers_memory.
  - by apply writeFile_covers, covers_memory.
  - unfold resolve. by repeat case_match.
  - by apply scheduleRemoveFileCache_covers, scheduleRemoveMemoryCache_covers,
      covers_memory.
  - done.
  - by apply removeFile_covers.
Qed.

Lemma complete_covers op error data s :
  covers P s → covers P (complete cfg op error data s).
Proof.
  intros Hc. unfold complete.
  destruct (inflight s !! op) as [o|] eqn:Hop; [|done].
  assert (Hk : is_Some (P !! op_key o)) by (destruct Hc as (_ & _ & Hi & _); eauto).
  pose proof (covers_done op s Hc) as Hc'.
  destruct o as [k cb|k v|k]; cbn in Hk.
  - apply completeRead_keeps; [|apply onFileAccessComplete_covers].
    by apply runReadCallback_covers, covers_unflag.
  - unfold completeWrite. destruct error; [done|].
    by apply scheduleRemoveFileCache_covers, onFileAccessComplete_covers.
  - unfold completeRm. destruct error; [done|].
    by apply onFileAccessComplete_covers.
Qed.

Lemma fire_covers h s : covers P s → covers P (fire cfg h s).
Proof.
  intros Hc. unfold fire.
  destruct (timers s !! h) as [t|] eqn:Hh; [|done].
  assert (Hk : is_Some (P !! timer_key t)) by (destruct Hc as (_ & _ & _ & Ht); eauto).
  pose proof (covers_timer_gone h s Hc) as Hc'.
  destruct t as [k d|k d]; cbn in Hk.
  - unfold fireMemoryTimer.
    destruct (onMemoryRemove cfg); by apply covers_forget, (covers_memory k Null).
  - unfold fireFileTimer.
    case_match; [|exact Hc'].
    case_match; [by apply (readFile_covers k EvictCallback)|].
    by apply (removeFile_covers k).
Qed.

Lemma handler_set_covers k v s :
  covers P s → covers P (handler_set cfg k v s).
Proof.
  intros Hc. unfold handler_set.
  set (s0 := if onSet cfg then emit (CallOnSet k v) s else s).
  assert (Hc' : covers P s0) by (unfold s0; by destruct (onSet cfg)).
  clearbody s0.
  case_bool_decide as Hbusy; [|exact Hc'].
  assert (Hk : is_Some (P !! k)).
  { destruct Hc' as (Hb & _). apply Hb. exact Hbusy. }
  destruct (is_defined (prop (memoryCaches (upd_isFileAccessing <[k := true]> s0)) k)).
  - by apply writeFile_covers, covers_flag.
  - by apply readFile_covers, covers_flag.
Qed.

End Touched.

Section Reachable.

Variable cfg : config.

Lemma covers_mono (P Q : gmap string nat) s :
  (∀ k, is_Some (P !! k) → is_Some (Q !! k)) → covers P s → covers Q s.
Proof. intros HPQ (Hb & Hm & Hi & Ht). repeat split; eauto. Qed.

Lemma handler_get_covers k s :
  covers (promiseCaches s) s →
  covers (promiseCaches (snd (handler_get cfg k s))) (snd (handler_get cfg k s)).
Proof.
  intros Hc. unfold handler_get.
  destruct (promiseCaches s !! k) as [p|] eqn:Hp; [done|].
  assert (Hc' : covers (<[k := nextPromise s]> (promiseCaches s)) s).
  { apply (covers_mono (promiseCaches s)); [|done].
    intros k'. rewrite lookup_insert. by case_decide. }
  assert (Hk : is_Some (<[k := nextPromise s]> (promiseCaches s) !! k))
    by (rewrite lookup_insert_eq; eauto).
  destruct (is_defined (prop (memoryCaches s) k)); cbn.
  - rewrite scheduleRemoveMemoryCache_promiseCaches. cbn.
    by apply scheduleRemoveMemoryCache_covers.
  - by apply (readFile_covers _ k (GetCallback (nextPromise s))
                (bump_nextPromise (upd_promises <[nextPromise s := Pending]> s))).
Qed.

Lemma step_covers e s :
  covers (promiseCaches s) s →
  covers (promiseCaches (step cfg s e)) (step cfg s e).
Proof.
  intros Hc. destruct e; cbn.
  - rewrite handler_set_promiseCaches. by apply handler_set_covers.
  - by apply handler_get_covers.
  - rewrite complete_promiseCaches. by apply complete_covers.
  - rewrite fire_promiseCaches. by apply fire_covers.
Qed.

Lemma reachable_covers s : reachable cfg s → covers (promiseCaches s) s.
Proof.
  intros [es ->].
  assert (Hgen : ∀ s0, covers (promiseCaches s0) s0 →
                       covers (promiseCaches (run cfg es s0)) (run cfg es s0)).
  { induction es as [|e es IH]; intros s0 Hc; [done|].
    cbn. apply IH. by apply step_covers. }
  apply Hgen. unfold covers, init.
  cbn [isFileAccessing memoryCaches inflight timers promiseCaches].
  split; [|split; [|split]].
  - intros k [b Hb]. by rewrite lookup_empty in Hb.
  - intros k [v Hv]. by rewrite lookup_empty in Hv.
  - intros h o Ho. by rewrite lookup_empty in Ho.
  - intros h t Ht. by rewrite lookup_empty in Ht.
Qed.


Lemma runReadCallback_no_data cb k error data s :
  no_data s → no_data (state_of (runReadCallback cfg cb k error data s)).
Proof.
  intros Hn. unfold runReadCallback.
  destruct cb as [content|q|], error as [e|]; cbn [state_of].
  - unfold no_data. by rewrite writeFile_promises.
  - unfold no_data. by rewrite writeFile_promises.
  - unfold resolve. destruct (promises s !! q) as [[|v]|]; [|done..].
    intros p st. cbn. rewrite lookup_insert. case_decide; [|apply Hn].
    intros [= <-]. by right.
  - unfold no_data.
    destruct (scheduleRemoveFileCache_rest cfg k
      (scheduleRemoveMemoryCache cfg k (upd_memoryCaches <[k := data]> s)))
      as (_ & _ & _ & Fp & _).
    destruct (scheduleRemoveMemoryCache_rest cfg k (upd_memoryCaches <[k := data]> s))
      as (_ & _ & _ & Mp & _).
    by rewrite Fp, Mp.
  - done.
  - done.
Qed.

Lemma complete_no_data op error data s :
  no_data s → no_data (complete cfg op error data s).
Proof.
  intros Hn. unfold complete.
  destruct (inflight s !! op) as [[k cb|k v|k]|]; [| | |done].
  - apply completeRead_keeps; [by apply runReadCallback_no_data|].
    intros s'. unfold no_data. by rewrite onFileAccessComplete_promises.
  - unfold completeWrite. destruct error; [done|]. unfold no_data.
    destruct (scheduleRemoveFileCache_rest cfg k
      (onFileAccessComplete cfg k (upd_inflight (delete op) s)))
      as (_ & _ & _ & Fp & _).
    by rewrite Fp, onFileAccessComplete_promises.
  - unfold completeRm. destruct error; [done|]. unfold no_data.
    by rewrite onFileAccessComplete_promises.
Qed.

Lemma fire_no_data h s : no_data s → no_data (fire cfg h s).
Proof.
  intros Hn. unfold fire, fireMemoryTimer, fireFileTimer, removeFile.
  repeat case_match; done.
Qed.

Lemma handler_get_no_data k s :
  covers (promiseCaches s) s → no_data s → no_data (snd (handler_get cfg k s)).
Proof.
  intros Hc Hn. unfold handler_get.
  destruct (promiseCaches s !! k) as [p|] eqn:Hp; [done|].
  destruct (is_defined (prop (memoryCaches s) k)) eqn:Hm.
  - destruct Hc as (_ & Hmem & _).
    assert (Hk : is_Some (promiseCaches s !! k)).
    { apply Hmem. unfold prop in Hm.
      destruct (memoryCaches s !! k); [eauto | discriminate Hm]. }
    rewrite Hp in Hk. by destruct Hk.
  - unfold newPromise. cbn. rewrite readFile_eq. intros p st. cbn.
    rewrite lookup_insert. case_decide; [|apply Hn].
    intros [= <-]. by left.
Qed.

(** From a fresh cache, whatever the callers and the file system do, no
    promise returned by [get] is ever resolved with a buffer. *)
Lemma reachable_no_data s : reachable cfg s → no_data s.
Proof.
  intros [es ->].
  assert (Hgen : ∀ s0, covers (promiseCaches s0) s0 → no_data s0 →
                       no_data (run cfg es s0)).
  { induction es as [|e es IH]; intros s0 Hc Hn; [done|].
    cbn. apply IH; [by apply step_covers|].
    destruct e; cbn.
    - unfold no_data. by rewrite handler_set_promises.
    - by apply handler_get_no_data.
    - by apply complete_no_data.
    - by apply fire_no_data. }
  apply Hgen.
  - apply (reachable_covers init). by exists [].
  - intros p st Hp. cbn in Hp. by rewrite lookup_empty in Hp.
Qed.

End Reachable.

(** ** A queued file timer is the one its slot names *)

Section FileTimers.

Variable cfg : config.

Lemma file_timers_slotted_fields s s' :
  timers s' = timers s → fileTimeLimits s' = fileTimeLimits s →
  file_timers_slotted cfg s → file_timers_slotted cfg s'.
Proof. unfold file_timers_slotted. intros -> ->. done. Qed.

Lemma scheduleRemoveFileCache_file_slotted k s :
  file_timers_slotted cfg s →
  file_timers_slotted cfg (scheduleRemoveFileCache cfg k s).
Proof.
  intros Hinv h k' d.
  destruct (scheduleRemoveFileCache_timers cfg k s) as (Et & _ & _ & Ef).
  rewrite Et, Ef, lookup_insert. case_decide as Hh.
  - intros [= <- <-]. subst h. by rewrite lookup_insert_eq.
  - intros Hq. pose proof (cleared_lookup_Some _ _ _ _ Hq) as Hq'.
    destruct (Hinv _ _ _ Hq') as [Hslot Hd]. split; [|done].
    destruct (decide (k' = k)) as [->|Hne].
    + rewrite Hslot in Hq. cbn in Hq. by rewrite lookup_delete_eq in Hq.
    + by rewrite lookup_insert_ne.
Qed.

Lemma scheduleRemoveMemoryCache_file_slotted k s :
  file_timers_slotted cfg s →
  file_timers_slotted cfg (scheduleRemoveMemoryCache cfg k s).
Proof.
  intros Hinv h k' d.
  destruct (scheduleRemoveMemoryCache_timers cfg k s) as (Et & _ & _ & Ef).
  rewrite Et, Ef, lookup_insert. case_decide as Hh; [done|].
  intros Hq%cleared_lookup_Some. by apply Hinv.
Qed.

Lemma writeFile_file_slotted k v s :
  file_timers_slotted cfg s → file_timers_slotted cfg (writeFile cfg k v s).
Proof.
  intros Hinv. unfold writeFile. case_match; [|done].
  cbn. by apply scheduleRemoveMemoryCache_file_slotted.
Qed.

Lemma handler_set_file_slotted k v s :
  file_timers_slotted cfg s → file_timers_slotted cfg (handler_set cfg k v s).
Proof.
  intros Hinv. unfold handler_set.
  set (s0 := if onSet cfg then emit (CallOnSet k v) s else s).
  assert (H0 : file_timers_slotted cfg s0) by (unfold s0; by destruct (onSet cfg)).
  clearbody s0. case_bool_decide; [|exact H0].
  case_match; [by apply writeFile_file_slotted | exact H0].
Qed.

Lemma onFileAccessComplete_file_slotted k s :
  file_timers_slotted cfg s →
  file_timers_slotted cfg (onFileAccessComplete cfg k s).
Proof.
  destruct (onFileAccessComplete_timer_fields cfg k s) as (Et & _ & _ & Ef).
  by apply file_timers_slotted_fields.
Qed.

Lemma runReadCallback_file_slotted cb k error data s :
  file_timers_slotted cfg s →
  file_timers_slotted cfg (state_of (runReadCallback cfg cb k error data s)).
Proof.
  intros Hinv. unfold runReadCallback.
  destruct cb as [content|p|], error as [e|]; cbn [state_of].
  - by apply writeFile_file_slotted.
  - by apply writeFile_file_slotted.
  - unfold resolve. by repeat case_match.
  - by apply scheduleRemoveFileCache_file_slotted,
      scheduleRemoveMemoryCache_file_slotted.
  - done.
  - done.
Qed.

Lemma complete_file_slotted op error data s :
  file_timers_slotted cfg s →
  file_timers_slotted cfg (complete cfg op error data s).
Proof.
  intros Hinv. unfold complete.
  destruct (inflight s !! op) as [[k cb|k v|k]|]; [| | |done].
  - apply completeRead_keeps; [|apply onFileAccessComplete_file_slotted].
    by apply runReadCallback_file_slotted.
  - unfold completeWrite. destruct error; [done|].
    by apply scheduleRemoveFileCache_file_slotted,
      onFileAccessComplete_file_slotted.
  - unfold completeRm. destruct error; [done|].
    by apply onFileAccessComplete_file_slotted.
Qed.

(** When the file timer of [k] has left the queue, no file timer of [k] is
    queued, so the slot of [k] may be deleted, or be left naming the timer
    that fired. *)
Lemma fire_file_slotted h s :
  file_timers_slotted cfg s → file_timers_slotted cfg (fire cfg h s).
Proof.
  intros Hinv. unfold fire.
  destruct (timers s !! h) as [[k d|k d]|] eqn:Hh; [| |done].
  - unfold fireMemoryTimer. intros h' k' d'.
    destruct (onMemoryRemove cfg); cbn.
    all: intros Hq; apply lookup_delete_Some in Hq as [_ Hq]; by apply Hinv.
  - destruct (Hinv _ _ _ Hh) as [Hslot _].
    assert (Hgone : ∀ h' k' d',
      delete h (timers s) !! h' = Some (FileTimer k' d') →
      k' ≠ k ∧ fileTimeLimits s !! k' = Some (Some h') ∧ d' = fileTTL cfg).
    { intros h' k' d' Hq. apply lookup_delete_Some in Hq as [Hne Hq].
      destruct (Hinv _ _ _ Hq) as [Hslot' Hd]. split; [|done].
      intros ->. congruence. }
    unfold fireFileTimer, removeFile. intros h' k' d'.
    repeat case_match; cbn; intros Hq;
      destruct (Hgone _ _ _ Hq) as (Hk & Hs & Hd); split; try done;
      by rewrite lookup_delete_ne, lookup_insert_ne.
Qed.

Lemma handler_get_file_slotted k s :
  file_timers_slotted cfg s →
  file_timers_slotted cfg (snd (handler_get cfg k s)).
Proof.
  intros Hinv. unfold handler_get, newPromise.
  destruct (promiseCaches s !! k); [done|].
  destruct (is_defined (prop (memoryCaches s) k)); cbn.
  - by apply scheduleRemoveMemoryCache_file_slotted.
  - done.
Qed.

Lemma run_file_slotted es s :
  file_timers_slotted cfg s → file_timers_slotted cfg (run cfg es s).
Proof.
  revert s. induction es as [|e es IH]; intros s Hinv; [done|].
  cbn. apply IH. destruct e; cbn.
  - by apply handler_set_file_slotted.
  - by apply handler_get_file_slotted.
  - by apply complete_file_slotted.
  - by apply fire_file_slotted.
Qed.

Lemma reachable_file_slotted s : reachable cfg s → file_timers_slotted cfg s.
Proof.
  intros [es ->]. apply run_file_slotted.
  intros h k d Hq. cbn in Hq. by rewrite lookup_empty in Hq.
Qed.

End FileTimers.

(** ** No removal is ever in flight *)

Section NoRemoval.

Variable cfg : config.












End NoRemoval.

(** ** A cache used as documented *)

Ltac own_key :=
  let H := fresh in
  unfold own_key, inherited_names; intros H;
  repeat (apply elem_of_cons in H as [H|H]; [discriminate H|]);
  by apply elem_of_nil in H.

Lemma own_key_a : own_key "a".
Proof. own_key. Qed.

Lemma own_key_b : own_key "b".
Proof. own_key. Qed.

Lemma in_use_reachable cfg s : in_use cfg s → reachable cfg s.
Proof. intros (es & _ & ->). by exists es. Qed.


Lemma in_use_step cfg s e :
  in_use cfg s → as_documented e → in_use cfg (step cfg s e).
Proof.
  intros (es & Hes & ->) He. exists (es ++ [e]). split.
  - apply Forall_app. by split; [|apply Forall_singleton].
  - unfold run. by rewrite foldl_app.
Qed.

(** ** The documented use is closed under the program *)

Section Documented.

Variable cfg : config.

Lemma own_keys_insert {A} (m : gmap string A) k v :
  own_key k → map_Forall (λ k _, own_key k) m →
  map_Forall (λ k _, own_key k) (<[k := v]> m).
Proof. intros. by apply map_Forall_insert_2. Qed.

Lemma own_keys_delete {A} (m : gmap string A) k :
  map_Forall (λ k _, own_key k) m → map_Forall (λ k _, own_key k) (delete k m).
Proof. apply map_Forall_delete. Qed.

Lemma queue_insert (m : gmap string value) k v :
  own_key k → is_buffer v →
  map_Forall (λ k v, own_key k ∧ is_buffer v) m →
  map_Forall (λ k v, own_key k ∧ is_buffer v) (<[k := v]> m).
Proof. intros. by apply map_Forall_insert_2. Qed.

Lemma queue_delete (m : gmap string value) k :
  map_Forall (λ k v, own_key k ∧ is_buffer v) m →
  map_Forall (λ k v, own_key k ∧ is_buffer v) (delete k m).
Proof. apply map_Forall_delete. Qed.

Lemma ops_insert (m : gmap nat io_op) h o :
  documented_op o → map_Forall (λ _ o, documented_op o) m →
  map_Forall (λ _ o, documented_op o) (<[h := o]> m).
Proof. intros. by apply map_Forall_insert_2. Qed.

Lemma ops_delete (m : gmap nat io_op) h :
  map_Forall (λ _ o, documented_op o) m →
  map_Forall (λ _ o, documented_op o) (delete h m).
Proof. apply map_Forall_delete. Qed.

Lemma timers_insert (m : gmap nat timer) h t :
  own_key (timer_key t) → map_Forall (λ _ t, own_key (timer_key t)) m →
  map_Forall (λ _ t, own_key (timer_key t)) (<[h := t]> m).
Proof. intros. by apply map_Forall_insert_2. Qed.

Lemma timers_delete (m : gmap nat timer) h :
  map_Forall (λ _ t, own_key (timer_key t)) m →
  map_Forall (λ _ t, own_key (timer_key t)) (delete h m).
Proof. apply map_Forall_delete. Qed.

Lemma effects_snoc l e :
  documented_effect e → Forall documented_effect l →
  Forall documented_effect (l ++ [e]).
Proof. intros. apply Forall_app. split; [done|]. by apply Forall_singleton. Qed.

Ltac doc_step :=
  first [ assumption | exact I
        | apply own_keys_insert | apply own_keys_delete
        | apply queue_insert | apply queue_delete
        | apply ops_insert | apply ops_delete
        | apply timers_insert | apply timers_delete
        | apply effects_snoc
        | progress cbn [documented_op documented_effect timer_key]
        | match goal with |- _ ∧ _ => split end ].

Ltac doc H :=
  destruct H as [Hpc Hmc Hml Hfl Hfa Hq Hi Ht Hl];
  constructor; cbn; repeat doc_step.

Lemma documented_init : documented init.
Proof. constructor; cbn; try apply map_Forall_empty. constructor. Qed.

Lemma scheduleRemoveMemoryCache_documented k s :
  own_key k → documented s → documented (scheduleRemoveMemoryCache cfg k s).
Proof.
  intros Hk Hd.
  unfold scheduleRemoveMemoryCache, clearIfSet, clearTimeout, setTimeout.
  destruct (memoryTimeLimits s !! k) as [[h|]|]; doc Hd.
Qed.

Lemma scheduleRemoveFileCache_documented k s :
  own_key k → documented s → documented (scheduleRemoveFileCache cfg k s).
Proof.
  intros Hk Hd.
  unfold scheduleRemoveFileCache, clearIfSet, clearTimeout, setTimeout.
  destruct (fileTimeLimits s !! k) as [[h|]|]; doc Hd.
Qed.

Lemma readFile_documented k cb s :
  documented_op (OpReadFile k cb) → own_key k → documented s →
  documented (readFile k cb s).
Proof. intros Ho Hk Hd. rewrite readFile_eq. doc Hd. Qed.

Lemma removeFile_documented k s :
  own_key k → documented s → documented (state_of (removeFile k s)).
Proof. intros Hk Hd. rewrite removeFile_eq. doc Hd. Qed.

Lemma writeFile_documented k v s :
  own_key k → is_buffer v → documented s → documented (writeFile cfg k v s).
Proof.
  intros Hk Hv Hd. unfold writeFile. case_match; [|done]. cbn.
  apply scheduleRemoveMemoryCache_documented; [done|]. doc Hd.
Qed.

Lemma handler_set_documented k v s :
  own_key k → is_buffer v → documented s → documented (handler_set cfg k v s).
Proof.
  intros Hk Hv Hd. unfold handler_set.
  set (s0 := if onSet cfg then emit (CallOnSet k v) s else s).
  assert (H0 : documented s0) by (unfold s0; destruct (onSet cfg); [doc Hd|done]).
  clearbody s0. case_bool_decide; [|doc H0].
  assert (H1 : documented (upd_isFileAccessing <[k := true]> s0)) by doc H0.
  case_match; [by apply writeFile_documented|].
  by apply readFile_documented.
Qed.

Lemma onFileAccessComplete_documented k s :
  own_key k → documented s → documented (onFileAccessComplete cfg k s).
Proof.
  intros Hk Hd. rewrite onFileAccessComplete_eq. cbn.
  destruct (is_defined (prop (hasQueue s) k)) eqn:Hdef; [|doc Hd].
  assert (Hv : is_buffer (prop (hasQueue s) k)).
  { unfold prop in *. destruct (hasQueue s !! k) as [v|] eqn:Hq; [|done].
    by destruct (doc_hasQueue s Hd k v Hq). }
  destruct (onSet cfg); doc Hd.
Qed.

Lemma runReadCallback_documented cb k error data s :
  documented_op (OpReadFile k cb) → own_key k → documented s →
  documented (state_of (runReadCallback cfg cb k error data s)).
Proof.
  intros Ho Hk Hd. unfold runReadCallback.
  destruct cb as [content|p|], error as [e|]; cbn [state_of].
  - destruct Ho as [_ Hv]. apply writeFile_documented; [done..|]. doc Hd.
  - destruct Ho as [_ Hv]. apply writeFile_documented; [done..|]. doc Hd.
  - unfold resolve. repeat case_match; try done. doc Hd.
  - apply scheduleRemoveFileCache_documented; [done|].
    apply scheduleRemoveMemoryCache_documented; [done|]. doc Hd.
  - done.
  - apply removeFile_documented; [done|]. doc Hd.
Qed.

Lemma complete_documented op error data s :
  documented s → documented (complete cfg op error data s).
Proof.
  intros Hd. unfold complete.
  destruct (inflight s !! op) as [o|] eqn:Hop; [|done].
  pose proof (doc_inflight s Hd op o Hop) as Ho.
  assert (Hd' : documented (upd_inflight (delete op) s)) by doc Hd.
  destruct o as [k cb|k v|k].
  - assert (Hk : own_key k) by (destruct cb; cbn in Ho; tauto).
    apply completeRead_keeps;
      [|intros s'; by apply onFileAccessComplete_documented].
    apply runReadCallback_documented; [done..|]. doc Hd'.
  - destruct Ho as [Hk _]. unfold completeWrite. destruct error; [doc Hd'|].
    by apply scheduleRemoveFileCache_documented, onFileAccessComplete_documented.
  - cbn in Ho. unfold completeRm. destruct error; [doc Hd'|].
    by apply onFileAccessComplete_documented.
Qed.

Lemma fire_documented h s : documented s → documented (fire cfg h s).
Proof.
  intros Hd. unfold fire.
  destruct (timers s !! h) as [t|] eqn:Hh; [|done].
  pose proof (doc_timers s Hd h t Hh) as Hk.
  assert (Hd' : documented (upd_timers (delete h) s)) by doc Hd.
  destruct t as [k d|k d]; cbn in Hk.
  - unfold fireMemoryTimer. destruct (onMemoryRemove cfg); doc Hd'.
  - unfold fireFileTimer.
    case_match; [|doc Hd'].
    case_match; [|by apply (removeFile_documented k)].
    assert (Hr : documented (readFile k EvictCallback (upd_timers (delete h) s)))
      by (by apply readFile_documented).
    doc Hr.
Qed.

Lemma handler_get_documented k s :
  own_key k → documented s → documented (snd (handler_get cfg k s)).
Proof.
  intros Hk Hd. unfold handler_get, newPromise.
  destruct (promiseCaches s !! k); [done|].
  destruct (is_defined (prop (memoryCaches s) k)); cbn.
  - apply scheduleRemoveMemoryCache_documented; [done|]. doc Hd.
  - assert (Hr : documented
      (readFile k (GetCallback (nextPromise s))
         (bump_nextPromise (upd_promises <[nextPromise s := Pending]> s)))).
    { apply readFile_documented; [done..|]. doc Hd. }
    doc Hr.
Qed.

Lemma step_documented e s :
  as_documented e → documented s → documented (step cfg s e).
Proof.
  intros He Hd. destruct e as [k v|k|op error data|h]; cbn in He |- *.
  - destruct He. by apply handler_set_documented.
  - by apply handler_get_documented.
  - by apply complete_documented.
  - by apply fire_documented.
Qed.

End Documented.

(** * Specification claims *)

(** C1 (the code departs from it): the test on line 40 sends the two cases
    the other way round.  With no operation in flight for the key (flag
    clear), [set] stores the content in [hasQueue] and returns: nothing is
    issued, the key is not marked busy, the memory value is unchanged.  With
    the flag set, [set] leaves [hasQueue] alone and issues an [fs] call at
    once: a read when no memory value is known, a write when one is known and
    is not the content itself. *)
Theorem set_branches_on_busy_flag cfg s k v :
  (isFileAccessing s !! k = None →
     let s' := handler_set cfg k v s in
     hasQueue s' = <[k := v]> (hasQueue s) ∧
     inflight s' = inflight s ∧
     isFileAccessing s' = isFileAccessing s ∧
     memoryCaches s' = memoryCaches s ∧
     log s' = log s ++ (if onSet cfg then [CallOnSet k v] else [])) ∧
  (is_Some (isFileAccessing s !! k) →
     let s' := handler_set cfg k v s in
     hasQueue s' = hasQueue s ∧
     (prop (memoryCaches s) k = Undefined →
        inflight s' = <[nextOp s := OpReadFile k (SetCallback v)]> (inflight s)) ∧
     (is_defined (prop (memoryCaches s) k) = true →
      prop (memoryCaches s) k ≠ v →
        inflight s' = <[nextOp s := OpWriteFile k v]> (inflight s) ∧
        memoryCaches s' = <[k := v]> (memoryCaches s))).
Proof.
  split.
  - intros Hidle s'. unfold s'. rewrite handler_set_idle by done.
    destruct (onSet cfg); cbn; by rewrite ?app_nil_r.
  - intros Hbusy s'.
    destruct (is_defined (prop (memoryCaches s) k)) eqn:Hm.
    + unfold s'. rewrite handler_set_busy_known by done.
      unfold writeFile.
      assert (Hmem : ∀ s0, memoryCaches
                (upd_isFileAccessing <[k := true]>
                   (if onSet cfg then emit (CallOnSet k v) s0 else s0))
              = memoryCaches s0) by (intros; by destruct (onSet cfg)).
      rewrite Hmem.
      destruct (strict_neq (prop (memoryCaches s) k) v) eqn:Hne.
      * cbn.
        match goal with |- context [scheduleRemoveMemoryCache cfg k ?s0] =>
          destruct (scheduleRemoveMemoryCache_rest cfg k s0)
            as (Hc & _ & Hq & _ & Hi & _) end.
        rewrite Hq, Hi, Hc. destruct (onSet cfg); cbn.
        all: split; [done|]; split; [intros E; by rewrite E in Hm|done].
      * split; [by destruct (onSet cfg)|].
        split; [intros E; by rewrite E in Hm|].
        intros _ Hv. apply strict_neq_true in Hv. congruence.
    + apply prop_undefined_iff in Hm.
      unfold s'. rewrite handler_set_busy_unknown by done.
      rewrite readFile_eq.
      split; [by destruct (onSet cfg)|]. split; [by destruct (onSet cfg)|].
      intros E. discriminate E.
Qed.

(** On a fresh cache [cache["a"] = b] only queues [b]; on key ["a"] of
    [evicting], which is busy with the file timer's read in flight, it starts
    a write. *)
Lemma set_branches_on_busy_flag_witness :
  (isFileAccessing init !! "a" = None ∧
   hasQueue (handler_set quiet "a" (Buffer 1) init) = {[ "a" := Buffer 1 ]} ∧
   inflight (handler_set quiet "a" (Buffer 1) init) = ∅ ∧
   isFileAccessing (handler_set quiet "a" (Buffer 1) init) = ∅) ∧
  (isFileAccessing evicting !! "a" = Some true ∧
   inflight evicting = {[ 1 := OpReadFile "a" EvictCallback ]} ∧
   hasQueue (handler_set observed "a" (Buffer 1) evicting) = ∅ ∧
   inflight (handler_set observed "a" (Buffer 1) evicting) =
     <[2 := OpWriteFile "a" (Buffer 1)]> {[ 1 := OpReadFile "a" EvictCallback ]}).
Proof.
  pose proof (set_branches_on_busy_flag quiet init "a" (Buffer 1)) as [Hidle _].
  pose proof (set_branches_on_busy_flag observed evicting "a" (Buffer 1)) as [_ Hbusy].
  destruct (Hidle eq_refl) as (Hq & Hi & Hb & _).
  destruct (Hbusy (ex_intro _ true eq_refl)) as (Hq' & _ & Hw).
  destruct (Hw eq_refl ltac:(discriminate)) as [Hi' _].
  split.
  - split; [reflexivity|]. split; [exact Hq|]. split; [exact Hi | exact Hb].
  - split; [reflexivity|]. split; [reflexivity|]. split; [exact Hq' | exact Hi'].
Defined.

(** C2 (the code departs from it): [get] on a key with no stored promise and
    no memory value stores a new pending promise and starts a read.  When
    that read fails the promise is resolved with [null] and the memory tier
    is left as it was.  When it succeeds with [d], the memory value becomes
    [d] and both timers are armed, but [resolve] is not called: the promise
    stays pending. *)
Theorem get_miss_then_read cfg s k :
  promiseCaches s !! k = None →
  prop (memoryCaches s) k = Undefined →
  let p := nextPromise s in
  let op := nextOp s in
  let s1 := snd (handler_get cfg k s) in
  fst (handler_get cfg k s) = p ∧
  promiseCaches s1 !! k = Some p ∧
  promises s1 !! p = Some Pending ∧
  inflight s1 !! op = Some (OpReadFile k (GetCallback p)) ∧
  ∀ s2, timers_wf s2 →
        inflight s2 !! op = Some (OpReadFile k (GetCallback p)) →
        promises s2 !! p = Some Pending →
    (∀ d, let s3 := complete cfg op None d s2 in
          promises s3 !! p = Some Pending ∧
          memoryCaches s3 !! k = Some d ∧
          memoryTimeLimits s3 !! k = Some (Some (nextTimer s2)) ∧
          timers s3 !! nextTimer s2 = Some (MemoryTimer k (memoryTTL cfg)) ∧
          fileTimeLimits s3 !! k = Some (Some (S (nextTimer s2))) ∧
          timers s3 !! S (nextTimer s2) = Some (FileTimer k (fileTTL cfg))) ∧
    (∀ e d, let s3 := complete cfg op (Some e) d s2 in
          promises s3 !! p = Some (Fulfilled Null) ∧
          memoryCaches s3 = memoryCaches s2).
Proof.
  intros Hp Hm p op s1. unfold s1. rewrite handler_get_miss by done.
  rewrite readFile_eq. cbn.
  split; [done|]. split; [apply lookup_insert_eq|].
  split; [apply lookup_insert_eq|]. split; [apply lookup_insert_eq|].
  intros s2 Hwf Hop Hpend. split.
  - intros d. erewrite complete_read by done.
    destruct (onFileAccessComplete_timer_fields cfg k
      (state_of (runReadCallback cfg (GetCallback p) k None d
         (upd_isFileAccessing (delete k) (upd_inflight (delete op) s2)))))
      as (Et & _ & Em & Ef).
    rewrite onFileAccessComplete_promises, onFileAccessComplete_memoryCaches,
      Et, Em, Ef.
    unfold runReadCallback. cbn [state_of].
    set (s0 := upd_memoryCaches <[k := d]>
                 (upd_isFileAccessing (delete k) (upd_inflight (delete op) s2))).
    destruct (scheduleRemoveMemoryCache_timers cfg k s0) as (Mt & Mn & Mm & Mf).
    destruct (scheduleRemoveMemoryCache_rest cfg k s0) as (Mc & _ & _ & Mp & _).
    destruct (scheduleRemoveFileCache_timers cfg k (scheduleRemoveMemoryCache cfg k s0))
      as (Ft & Fn & Fm & Ff).
    destruct (scheduleRemoveFileCache_rest cfg k (scheduleRemoveMemoryCache cfg k s0))
      as (Fc & _ & _ & Fp & _).
    rewrite Fp, Mp, Fc, Mc, Fm, Mm, Ff, Ft, Mt, Mn, Mf. cbn.
    split; [done|]. split; [apply lookup_insert_eq|].
    split; [apply lookup_insert_eq|]. split.
    + rewrite lookup_insert_ne by lia.
      destruct (fileTimeLimits s2 !! k) as [[h0|]|] eqn:Hslot; cbn;
        [|apply lookup_insert_eq..].
      destruct Hwf as (_ & _ & Hf). destruct (Hf _ _ Hslot) as [Hlt _].
      rewrite lookup_delete_ne by lia. apply lookup_insert_eq.
    + split; apply lookup_insert_eq.
  - intros e d. erewrite complete_read by done.
    rewrite onFileAccessComplete_promises, onFileAccessComplete_memoryCaches.
    unfold runReadCallback, resolve. cbn. rewrite Hpend. cbn.
    split; [apply lookup_insert_eq | done].
Qed.

(** On a fresh cache: [get("a")] gives promise 0 and starts read 0.  If the
    read succeeds with a buffer, promise 0 is still pending; if it fails,
    promise 0 is resolved with [null]. *)
Lemma get_miss_then_read_witness :
  promiseCaches init !! "a" = None ∧
  prop (memoryCaches init) "a" = Undefined ∧
  handler_get quiet "a" init = (0, run quiet [Read "a"] init) ∧
  promises (run quiet [Read "a"; IoDone 0 None (Buffer 9)] init) !! 0 = Some Pending ∧
  memoryCaches (run quiet [Read "a"; IoDone 0 None (Buffer 9)] init) !! "a"
    = Some (Buffer 9) ∧
  promises (run quiet [Read "a"; IoDone 0 (Some "ENOENT") Undefined] init) !! 0
    = Some (Fulfilled Null).
Proof.
  split; [reflexivity|]. split; [reflexivity|]. split; [reflexivity|].
  pose proof (get_miss_then_read quiet init "a" eq_refl eq_refl)
    as (_ & _ & Hpend & Hop & Hlater).
  destruct (Hlater _ (handler_get_wf quiet "a" init timers_wf_init) Hop Hpend)
    as [Hok Hfail].
  destruct (Hok (Buffer 9)) as (H1 & H2 & _).
  destruct (Hfail "ENOENT" Undefined) as (H3 & _).
  split; [exact H1|]. split; [exact H2 | exact H3].
Defined.

(** C3 (the code departs from it): a value is queued for an idle key, a read
    of that key is started, and the read completes, with any outcome.  The
    completion clears the busy flag and empties the queue slot, and the [set]
    trap is called again, but that call only puts the value back in the slot
    that is deleted next: apart from the read itself nothing was issued to
    [fs], nothing is in flight for it afterwards, and the queued value is
    gone. *)
Theorem queued_write_is_dropped cfg s k v error data :
  isFileAccessing s !! k = None →
  promiseCaches s !! k = None →
  prop (memoryCaches s) k = Undefined →
  is_defined v = true →
  let s1 := handler_set cfg k v s in
  let s2 := snd (handler_get cfg k s1) in
  let s3 := complete cfg (nextOp s) error data s2 in
  let observer := if onSet cfg then [CallOnSet k v] else [] in
  prop (hasQueue s1) k = v ∧
  isFileAccessing s2 !! k = Some true ∧
  inflight s2 = <[nextOp s := OpReadFile k (GetCallback (nextPromise s))]> (inflight s) ∧
  isFileAccessing s3 !! k = None ∧
  prop (hasQueue s3) k = Undefined ∧
  inflight s3 = delete (nextOp s) (inflight s) ∧
  log s3 = log s ++ observer ++ [FsReadFile (nextOp s) k] ++ observer.
Proof.
  intros Hidle Hp Hm Hv s1 s2 s3 observer.
  assert (E1 : s1 = upd_hasQueue <[k := v]>
                 (if onSet cfg then emit (CallOnSet k v) s else s))
    by (by apply handler_set_idle).
  assert (E2 : s2 = upd_promiseCaches <[k := nextPromise s]>
                 (readFile k (GetCallback (nextPromise s))
                    (bump_nextPromise (upd_promises <[nextPromise s := Pending]> s1)))).
  { unfold s2. rewrite handler_get_miss.
    - rewrite E1. by destruct (onSet cfg).
    - rewrite E1. by destruct (onSet cfg).
    - rewrite E1. by destruct (onSet cfg). }
  assert (Hop : nextOp s1 = nextOp s) by (rewrite E1; by destruct (onSet cfg)).
  assert (Hfl : inflight s1 = inflight s) by (rewrite E1; by destruct (onSet cfg)).
  assert (Hq1 : prop (hasQueue s1) k = v).
  { rewrite E1. destruct (onSet cfg); apply prop_insert_eq. }
  assert (Hlog1 : log s1 = log s ++ observer).
  { rewrite E1. unfold observer. destruct (onSet cfg); cbn; by rewrite ?app_nil_r. }
  assert (Hfl2 : inflight s2 =
            <[nextOp s := OpReadFile k (GetCallback (nextPromise s))]> (inflight s)).
  { rewrite E2, readFile_eq. cbn. by rewrite Hop, Hfl. }
  split; [done|]. split.
  { rewrite E2, readFile_eq. cbn. apply lookup_insert_eq. }
  split; [done|].
  unfold s3.
  rewrite (complete_read cfg (nextOp s) k (GetCallback (nextPromise s)))
    by first [done | rewrite Hfl2; apply lookup_insert_eq].
  split; [apply onFileAccessComplete_idle|].
  split; [apply onFileAccessComplete_queue|].
  rewrite onFileAccessComplete_inflight, onFileAccessComplete_log.
  assert (Hcb : ∀ s', let s'' := state_of (runReadCallback cfg
                                   (GetCallback (nextPromise s)) k error data s') in
            inflight s'' = inflight s' ∧ log s'' = log s' ∧ hasQueue s'' = hasQueue s').
  { intros s'. unfold runReadCallback. destruct error; cbn [state_of].
    - unfold resolve. by repeat case_match.
    - destruct (scheduleRemoveFileCache_rest cfg k
        (scheduleRemoveMemoryCache cfg k (upd_memoryCaches <[k := data]> s')))
        as (_ & _ & Hq & _ & Hi & _ & Hl).
      destruct (scheduleRemoveMemoryCache_rest cfg k
        (upd_memoryCaches <[k := data]> s')) as (_ & _ & Hq' & _ & Hi' & _ & Hl').
      cbn. rewrite Hi, Hi', Hq, Hq', Hl, Hl'. done. }
  match goal with |- context [runReadCallback _ _ _ _ _ ?s'] =>
    destruct (Hcb s') as (Hi & Hl & Hq) end.
  unfold drain_log. rewrite Hi, Hl, Hq. cbn.
  rewrite Hfl2, delete_insert_eq. split; [done|].
  rewrite E2, readFile_eq. cbn. rewrite Hq1, Hv, Hlog1, Hop. cbn.
  unfold observer. destruct (onSet cfg); cbn; by rewrite <- ?app_assoc.
Qed.

Lemma queued_write_is_dropped_witness :
  let s3 := run observed
              [Assign "a" (Buffer 1); Read "a"; IoDone 0 (Some "ENOENT") Undefined] init in
  isFileAccessing s3 !! "a" = None ∧
  prop (hasQueue s3) "a" = Undefined ∧
  inflight s3 = ∅ ∧
  log s3 = [CallOnSet "a" (Buffer 1); FsReadFile 0 "a"; CallOnSet "a" (Buffer 1)].
Proof.
  pose proof (queued_write_is_dropped observed init "a" (Buffer 1)
                (Some "ENOENT") Undefined eq_refl eq_refl eq_refl eq_refl)
    as (_ & _ & _ & Hb & Hq & Hi & Hl).
  split; [exact Hb|]. split; [exact Hq|]. split; [exact Hi | exact Hl].
Defined.

(** C4, as stated, fails: on a fresh cache [get("a")] stores promise 0 and
    starts a read; the read fails and promise 0 is resolved with [null].  The
    resolved promise is still stored, and the next [get("a")] returns it: the
    memory tier is not looked at and no read is issued. *)
Lemma resolved_promise_is_returned_again :
  let p := fst (handler_get quiet "a" init) in
  let s := complete quiet 0 (Some "ENOENT") Undefined (snd (handler_get quiet "a" init)) in
  promises s !! p = Some (Fulfilled Null) ∧
  promiseCaches s !! "a" = Some p ∧
  ¬ (fst (handler_get quiet "a" s) ≠ p) ∧
  snd (handler_get quiet "a" s) = s.
Proof.
  cbv zeta. split; [by vm_compute|]. split; [by vm_compute|].
  split; [intros H; apply H; by vm_compute | by vm_compute].
Qed.

(** C4, amended: a promise stored for a key is never removed, resolved or
    not.  Whatever happens after it was stored, [get] on that key returns that
    same promise and changes nothing. *)
Theorem stored_promise_is_permanent cfg s k p es :
  promiseCaches s !! k = Some p →
  handler_get cfg k (run cfg es s) = (p, run cfg es s).
Proof.
  intros Hp. apply handler_get_stored. by apply run_promiseCaches.
Qed.

Lemma stored_promise_is_permanent_witness :
  promiseCaches (run quiet [Read "a"] init) !! "a" = Some 0 ∧
  handler_get quiet "a"
    (run quiet [IoDone 0 None (Buffer 9); TimerDue 0; TimerDue 1; Assign "a" (Buffer 1)]
       (run quiet [Read "a"] init)) =
    (0, run quiet [IoDone 0 None (Buffer 9); TimerDue 0; TimerDue 1; Assign "a" (Buffer 1)]
          (run quiet [Read "a"] init)).
Proof.
  split; [reflexivity|].
  exact (stored_promise_is_permanent quiet (run quiet [Read "a"] init) "a" 0
           [IoDone 0 None (Buffer 9); TimerDue 0; TimerDue 1; Assign "a" (Buffer 1)]
           eq_refl).
Defined.

(** C5, as stated, fails.  First run: a write of ["a"] is in flight (op 2)
    and [Buffer 2] is queued behind it; the write fails; [Buffer 2] is still
    queued and no write was issued for it.  Second run: ["a"] is marked busy
    when its write (op 1) fails, and is still marked busy afterwards. *)
Lemma failed_write_leaves_queue_and_flag :
  (let s := run quiet [Read "a"; Assign "a" (Buffer 1); IoDone 1 None (Buffer 9);
                       Assign "a" (Buffer 2)] init in
   let s' := step quiet s (IoDone 2 (Some "EIO") Undefined) in
   inflight s !! 2 = Some (OpWriteFile "a" (Buffer 1)) ∧
   prop (hasQueue s) "a" = Buffer 2 ∧
   ¬ (prop (hasQueue s') "a" = Undefined) ∧
   log s' = log s ++ [Throw "EIO"]) ∧
  (let s := run quiet [Read "a"; IoDone 0 None (Buffer 9); TimerDue 1;
                       Assign "a" (Buffer 1)] init in
   let s' := step quiet s (IoDone 1 (Some "EIO") Undefined) in
   inflight s !! 1 = Some (OpWriteFile "a" (Buffer 1)) ∧
   isFileAccessing s !! "a" = Some true ∧
   ¬ (isFileAccessing s' !! "a" = None) ∧
   log s' = log s ++ [Throw "EIO"]).
Proof.
  cbv zeta. split.
  - split; [by vm_compute|]. split; [by vm_compute|].
    split; [intros H; vm_compute in H; discriminate H | by vm_compute].
  - split; [by vm_compute|]. split; [by vm_compute|].
    split; [intros H; vm_compute in H; discriminate H | by vm_compute].
Qed.

(** C5, amended: when the write issued by [writeFile] fails, its callback
    throws the error and does nothing else.  The operation leaves the event
    loop and the error is thrown; every map of the cache is as it was, for
    this key and for all others: the busy flag is not cleared and a queued
    value is not drained. *)
Theorem failed_write_throws_and_stops cfg s op k v e d :
  inflight s !! op = Some (OpWriteFile k v) →
  let s' := complete cfg op (Some e) d s in
  s' = emit (Throw e) (upd_inflight (delete op) s) ∧
  log s' = log s ++ [Throw e] ∧
  isFileAccessing s' = isFileAccessing s ∧
  hasQueue s' = hasQueue s ∧
  memoryCaches s' = memoryCaches s ∧
  inflight s' = delete op (inflight s).
Proof.
  intros Hop s'. unfold s'. erewrite complete_write by done. done.
Qed.

Lemma failed_write_throws_and_stops_witness :
  let s := run quiet [Read "a"; Assign "a" (Buffer 1); IoDone 1 None (Buffer 9);
                      Assign "a" (Buffer 2)] init in
  inflight s !! 2 = Some (OpWriteFile "a" (Buffer 1)) ∧
  log (complete quiet 2 (Some "EIO") Undefined s) = log s ++ [Throw "EIO"] ∧
  hasQueue (complete quiet 2 (Some "EIO") Undefined s) = hasQueue s.
Proof.
  intros s. split; [reflexivity|].
  pose proof (failed_write_throws_and_stops quiet s 2 "a" (Buffer 1) "EIO" Undefined
                eq_refl) as (_ & Hlog & _ & Hq & _).
  split; [exact Hlog | exact Hq].
Defined.






(** C7 (the code departs from it): the closure queued by
    [scheduleRemoveFileCache].  When it runs while the key is marked busy,
    nothing happens but the removal of the timer slot: no [fs] call, no
    observer call, no new timer.  When it runs while the key is not marked
    busy, the file is never deleted, because [fs.rm] is called with [null] for
    its options and throws.  With [onFileRemove], a read is started; when
    that read succeeds the observer is called with the data, [removeFile]
    marks the key busy and throws: nothing is in flight for the removal, and
    the key is left marked busy with its queue untouched.  With no
    [onFileRemove], [removeFile] throws inside the timer: nothing is in
    flight, the key is left marked busy, and the slot still names the timer
    that fired. *)
Theorem file_timer_fires cfg s h k d :
  own_key k →
  timers s !! h = Some (FileTimer k d) →
  let s' := fire cfg h s in
  let op := nextOp s in
  timers s' = delete h (timers s) ∧
  (is_Some (isFileAccessing s !! k) →
     fileTimeLimits s' = delete k (fileTimeLimits s) ∧
     log s' = log s ∧ inflight s' = inflight s ∧
     isFileAccessing s' = isFileAccessing s ∧ memoryCaches s' = memoryCaches s ∧
     hasQueue s' = hasQueue s) ∧
  (isFileAccessing s !! k = None → onFileRemove cfg = true →
     fileTimeLimits s' = delete k (fileTimeLimits s) ∧
     log s' = log s ++ [FsReadFile op k] ∧
     inflight s' = <[op := OpReadFile k EvictCallback]> (inflight s) ∧
     isFileAccessing s' !! k = Some true ∧
     ∀ s2 data, inflight s2 !! op = Some (OpReadFile k EvictCallback) →
       let s3 := complete cfg op None data s2 in
       log s3 = log s2 ++ [CallOnFileRemove k data; Throw "ERR_INVALID_ARG_TYPE"] ∧
       inflight s3 = delete op (inflight s2) ∧
       isFileAccessing s3 !! k = Some true ∧
       hasQueue s3 = hasQueue s2) ∧
  (isFileAccessing s !! k = None → onFileRemove cfg = false →
     log s' = log s ++ [Throw "ERR_INVALID_ARG_TYPE"] ∧
     inflight s' = inflight s ∧
     isFileAccessing s' !! k = Some true ∧
     fileTimeLimits s' = fileTimeLimits s).
Proof.
  intros _ Hh s' op. unfold s', fire. rewrite Hh. unfold fireFileTimer.
  cbn [isFileAccessing upd_timers].
  destruct (isFileAccessing s !! k) as [b|] eqn:Hbusy.
  - rewrite bool_decide_eq_false_2 by done. cbn.
    rewrite delete_insert_eq. repeat split; try done.
  - case_bool_decide as Hd; [clear Hd | done].
    destruct (onFileRemove cfg) eqn:Hobs.
    + rewrite readFile_eq. cbn. rewrite delete_insert_eq.
      split; [done|]. split; [by intros [? ?]|].
      split; [|done]. intros _ _. split; [done|]. split; [done|]. split; [done|].
      split; [apply lookup_insert_eq|].
      intros s2 data Hop. rewrite (complete_evict_read cfg op k data s2 Hop). cbn.
      rewrite <- app_assoc. split; [done|]. split; [done|].
      split; [apply lookup_insert_eq | done].
    + rewrite removeFile_eq. cbn.
      split; [done|]. split; [by intros [? ?]|].
      split; [done|]. intros _ _. split; [done|]. split; [done|].
      split; [apply lookup_insert_eq | done].
Qed.

(** A file timer of ["a"] comes due.  In [flagged] the key is marked busy
    (although nothing is in flight): nothing is logged and nothing starts.  In
    [loaded] with an observer: read 1 starts, and when it succeeds the
    observer gets the data and [fs.rm] throws.  In [loaded] without observer:
    [fs.rm] throws at once; no removal is in flight.  In [overlapping], read 1
    of ["a"] is in flight but the flag of ["a"] is clear (the completion of
    read 0 deleted it): the firing is not skipped, and the read made for
    [onFileRemove] starts while read 1 is still in flight. *)
Lemma file_timer_fires_witness :
  own_key "a" ∧
  (timers flagged !! 3 = Some (FileTimer "a" 300) ∧
   isFileAccessing flagged !! "a" = Some true ∧
   inflight flagged = ∅ ∧
   log (fire observed 3 flagged) = log flagged ∧
   timers (fire observed 3 flagged) = {[ 2 := MemoryTimer "a" 100 ]}) ∧
  (timers (loaded observed) !! 1 = Some (FileTimer "a" 300) ∧
   isFileAccessing (loaded observed) !! "a" = None ∧
   log (run observed [TimerDue 1; IoDone 1 None (Buffer 9)] (loaded observed)) =
     [FsReadFile 0 "a"; FsReadFile 1 "a"; CallOnFileRemove "a" (Buffer 9);
      Throw "ERR_INVALID_ARG_TYPE"] ∧
   inflight (run observed [TimerDue 1; IoDone 1 None (Buffer 9)] (loaded observed)) = ∅) ∧
  (timers (loaded quiet) !! 1 = Some (FileTimer "a" 600000) ∧
   isFileAccessing (loaded quiet) !! "a" = None ∧
   log (fire quiet 1 (loaded quiet)) = [FsReadFile 0 "a"; Throw "ERR_INVALID_ARG_TYPE"] ∧
   inflight (fire quiet 1 (loaded quiet)) = ∅ ∧
   isFileAccessing (fire quiet 1 (loaded quiet)) !! "a" = Some true) ∧
  (timers (overlapping observed) !! 1 = Some (FileTimer "a" 300) ∧
   inflight (overlapping observed) = {[ 1 := OpReadFile "a" (SetCallback (Buffer 1)) ]} ∧
   isFileAccessing (overlapping observed) !! "a" = None ∧
   inflight (fire observed 1 (overlapping observed)) =
     <[2 := OpReadFile "a" EvictCallback]> (inflight (overlapping observed))).
Proof.
  pose proof own_key_a as Hk.
  pose proof (file_timer_fires observed flagged 3 "a" 300 Hk eq_refl)
    as (Ht & Hbusy & _).
  pose proof (file_timer_fires observed (loaded observed) 1 "a" 300 Hk eq_refl)
    as (_ & _ & Hobs & _).
  pose proof (file_timer_fires quiet (loaded quiet) 1 "a" 600000 Hk eq_refl)
    as (_ & _ & _ & Hquiet).
  pose proof (file_timer_fires observed (overlapping observed) 1 "a" 300 Hk eq_refl)
    as (_ & _ & Hover & _).
  destruct (Hbusy (ex_intro _ true eq_refl)) as (_ & Hlog & _).
  destruct (Hobs eq_refl eq_refl) as (_ & _ & _ & _ & Hdone).
  destruct (Hdone (fire observed 1 (loaded observed)) (Buffer 9) eq_refl)
    as (Hlog' & Hfl' & _).
  destruct (Hquiet eq_refl eq_refl) as (Hlog'' & Hfl'' & Hflag'' & _).
  destruct (Hover eq_refl eq_refl) as (_ & _ & Hfl3 & _).
  split; [exact Hk|]. split; [|split; [|split]].
  - split; [reflexivity|]. split; [reflexivity|]. split; [reflexivity|].
    split; [exact Hlog | exact Ht].
  - split; [reflexivity|]. split; [reflexivity|]. split; [exact Hlog' | exact Hfl'].
  - split; [reflexivity|]. split; [reflexivity|]. split; [exact Hlog''|].
    split; [exact Hfl'' | exact Hflag''].
  - split; [reflexivity|]. split; [reflexivity|]. split; [reflexivity | exact Hfl3].
Defined.




(** C9: the closure queued by [scheduleRemoveMemoryCache], when it runs, calls
    [onMemoryRemove] (when configured) with the current memory value, then
    deletes the memory entry (and nulls the timer slot).  It never reads
    [isFileAccessing]: the statement holds whatever the busy state and the
    operations in flight, which it leaves as they are. *)
Theorem memory_timer_ignores_busy cfg s h k d :
  timers s !! h = Some (MemoryTimer k d) →
  let s' := fire cfg h s in
  log s' = log s ++ (if onMemoryRemove cfg
                     then [CallOnMemoryRemove k (prop (memoryCaches s) k)]
                     else []) ∧
  memoryCaches s' = delete k (memoryCaches s) ∧
  memoryTimeLimits s' = <[k := None]> (memoryTimeLimits s) ∧
  timers s' = delete h (timers s) ∧
  isFileAccessing s' = isFileAccessing s ∧
  inflight s' = inflight s.
Proof.
  intros Hh. unfold fire. rewrite Hh. unfold fireMemoryTimer.
  destruct (onMemoryRemove cfg); cbn.
  - by rewrite delete_insert_eq.
  - by rewrite delete_insert_eq, app_nil_r.
Qed.

(** The memory timer of ["a"] fires while ["a"] is busy and the read made for
    [onFileRemove] is in flight. *)
Lemma memory_timer_ignores_busy_witness :
  timers evicting !! 0 = Some (MemoryTimer "a" 100) ∧
  isFileAccessing evicting !! "a" = Some true ∧
  inflight evicting !! 1 = Some (OpReadFile "a" EvictCallback) ∧
  memoryCaches evicting !! "a" = Some (Buffer 9) ∧
  memoryCaches (fire observed 0 evicting) = delete "a" (memoryCaches evicting) ∧
  log (fire observed 0 evicting) =
    log evicting ++ [CallOnMemoryRemove "a" (Buffer 9)].
Proof.
  split; [reflexivity|]. split; [reflexivity|]. split; [reflexivity|].
  split; [reflexivity|].
  pose proof (memory_timer_ignores_busy observed evicting 0 "a" 100 eq_refl)
    as (Hlog & Hmem & _).
  split; [exact Hmem | exact Hlog].
Defined.

(** C10: draining a queued value goes through the [set] trap
    ([proxy[fileName] = hasQueue[fileName]]), so with an [onSet] observer every
    drain calls it again with the same key and content.  One caller
    assignment can therefore produce two [onSet] calls: the caller's own, and
    the one made when the next completed operation drains the queue. *)
Theorem drain_calls_onSet_again cfg :
  onSet cfg = true →
  (∀ s k, is_defined (prop (hasQueue s) k) = true →
     log (onFileAccessComplete cfg k s) =
       log s ++ [CallOnSet k (prop (hasQueue s) k)]) ∧
  log (run cfg [Assign "a" (Buffer 1); Read "a"; IoDone 0 (Some "ENOENT") Undefined]
         init) =
    [CallOnSet "a" (Buffer 1); FsReadFile 0 "a"; CallOnSet "a" (Buffer 1)].
Proof.
  intros Hobs. split.
  - intros s k Hq. rewrite onFileAccessComplete_log.
    unfold drain_log. by rewrite Hq, Hobs.
  - destruct cfg; simpl in Hobs; subst. reflexivity.
Qed.

Lemma drain_calls_onSet_again_witness :
  onSet observed = true ∧
  log (run observed [Assign "a" (Buffer 1); Read "a"; IoDone 0 (Some "ENOENT") Undefined]
         init) =
    [CallOnSet "a" (Buffer 1); FsReadFile 0 "a"; CallOnSet "a" (Buffer 1)].
Proof.
  split; [reflexivity|].
  exact (proj2 (drain_calls_onSet_again observed eq_refl)).
Defined.

(** * Further properties of the program *)

(** ** Reads are coalesced *)

(** X1: two [get]s of the same key in a row return the same promise, and the
    second one changes nothing: it starts no read and arms no timer, whatever
    branch the first one took. *)
Theorem get_twice_same_promise cfg k s :
  handler_get cfg k (snd (handler_get cfg k s)) =
    (fst (handler_get cfg k s), snd (handler_get cfg k s)).
Proof.
  destruct (promiseCaches s !! k) as [p|] eqn:Hp.
  - rewrite (handler_get_stored cfg k p s Hp). cbn.
    by apply handler_get_stored.
  - destruct (is_defined (prop (memoryCaches s) k)) eqn:Hm.
    + rewrite (handler_get_hit cfg k s Hp Hm). cbn [fst snd].
      apply handler_get_stored.
      rewrite scheduleRemoveMemoryCache_promiseCaches. cbn.
      apply lookup_insert_eq.
    + apply prop_undefined_iff in Hm. rewrite (handler_get_miss cfg k s Hp Hm).
      cbn [fst snd]. apply handler_get_stored. cbn. apply lookup_insert_eq.
Qed.

(** ** [writeFile] and the content already in memory *)

(** X2: [writeFile] is idempotent.  Once it has run for a content, the memory
    value is that content, and running it again with the same content (the
    same reference) does nothing: no second write, no timer. *)
Theorem writeFile_twice cfg k v s :
  writeFile cfg k v (writeFile cfg k v s) = writeFile cfg k v s.
Proof.
  unfold writeFile at 1. rewrite writeFile_memory.
  by rewrite strict_neq_refl.
Qed.

(** X3: on a key that is marked busy and has a memory value, assigning the
    same content twice issues one write only.  The second assignment repeats
    the [onSet] call and changes nothing else. *)
Theorem set_twice_one_write cfg k v s :
  is_Some (isFileAccessing s !! k) →
  is_defined (prop (memoryCaches s) k) = true →
  is_defined v = true →
  let s1 := handler_set cfg k v s in
  let s2 := handler_set cfg k v s1 in
  inflight s2 = inflight s1 ∧
  timers s2 = timers s1 ∧
  memoryCaches s2 = memoryCaches s1 ∧
  isFileAccessing s2 = isFileAccessing s1 ∧
  hasQueue s2 = hasQueue s1 ∧
  log s2 = log s1 ++ (if onSet cfg then [CallOnSet k v] else []).
Proof.
  intros Hbusy Hm Hv s1 s2.
  assert (Hmem1 : prop (memoryCaches s1) k = v).
  { unfold s1. rewrite handler_set_busy_known by done. apply writeFile_memory. }
  assert (Hflag1 : isFileAccessing s1 !! k = Some true).
  { unfold s1. rewrite handler_set_busy_known by done. unfold writeFile.
    case_match.
    - cbn.
      match goal with |- context [scheduleRemoveMemoryCache cfg k ?s0] =>
        destruct (scheduleRemoveMemoryCache_rest cfg k s0) as (_ & Hb & _) end.
      rewrite Hb. cbn. apply lookup_insert_eq.
    - destruct (onSet cfg); cbn; apply lookup_insert_eq. }
  unfold s2. rewrite handler_set_busy_known; [|by rewrite Hflag1|by rewrite Hmem1].
  unfold writeFile.
  assert (Hsame : prop (memoryCaches (upd_isFileAccessing <[k := true]>
                     (if onSet cfg then emit (CallOnSet k v) s1 else s1))) k = v)
    by (destruct (onSet cfg); exact Hmem1).
  rewrite Hsame, strict_neq_refl.
  destruct (onSet cfg); cbn; rewrite ?app_nil_r;
    by rewrite (insert_id _ _ _ Hflag1).
Qed.

(** Key ["a"] of [evicting] is marked busy and has the memory value
    [Buffer 9]. *)
Lemma set_twice_one_write_witness :
  let s1 := handler_set observed "a" (Buffer 1) evicting in
  let s2 := handler_set observed "a" (Buffer 1) s1 in
  isFileAccessing evicting !! "a" = Some true ∧
  prop (memoryCaches evicting) "a" = Buffer 9 ∧
  inflight s1 =
    <[2 := OpWriteFile "a" (Buffer 1)]> {[ 1 := OpReadFile "a" EvictCallback ]} ∧
  inflight s2 = inflight s1 ∧
  log s2 = log s1 ++ [CallOnSet "a" (Buffer 1)].
Proof.
  intros s1 s2.
  assert (Hb : is_Some (isFileAccessing evicting !! "a"))
    by (exists true; vm_compute; reflexivity).
  assert (Hm : is_defined (prop (memoryCaches evicting) "a") = true)
    by (vm_compute; reflexivity).
  pose proof (set_twice_one_write observed "a" (Buffer 1) evicting Hb Hm eq_refl)
    as (Hi & _ & _ & _ & _ & Hl).
  split; [vm_compute; reflexivity|]. split; [vm_compute; reflexivity|].
  split; [vm_compute; reflexivity|]. split; [exact Hi | exact Hl].
Defined.

(** X4: on a key that is not marked busy, a later assignment replaces the
    queued content: after two assignments the queue holds the second content
    only, and still nothing was issued to [fs]. *)
Theorem set_twice_queues_last cfg k v1 v2 s :
  isFileAccessing s !! k = None →
  let s2 := handler_set cfg k v2 (handler_set cfg k v1 s) in
  hasQueue s2 = <[k := v2]> (hasQueue s) ∧
  inflight s2 = inflight s ∧
  isFileAccessing s2 = isFileAccessing s ∧
  memoryCaches s2 = memoryCaches s ∧
  log s2 = log s ++ (if onSet cfg then [CallOnSet k v1; CallOnSet k v2] else []).
Proof.
  intros Hidle s2. unfold s2.
  rewrite (handler_set_idle cfg k v1 s Hidle).
  rewrite handler_set_idle by (by destruct (onSet cfg)).
  destruct (onSet cfg); cbn; rewrite insert_insert_eq, <- ?app_assoc, ?app_nil_r; done.
Qed.

Lemma set_twice_queues_last_witness :
  isFileAccessing init !! "a" = None ∧
  hasQueue (handler_set quiet "a" (Buffer 2) (handler_set quiet "a" (Buffer 1) init))
    = {[ "a" := Buffer 2 ]} ∧
  inflight (handler_set quiet "a" (Buffer 2) (handler_set quiet "a" (Buffer 1) init))
    = ∅.
Proof.
  pose proof (set_twice_queues_last quiet "a" (Buffer 1) (Buffer 2) init eq_refl)
    as (Hq & Hi & _).
  split; [reflexivity|]. split; [exact Hq | exact Hi].
Defined.

(** ** What the completion callbacks do *)

(** X5: when an [fs] call finishes and its callback runs to its end, the
    key ends up not marked busy and with an empty queue slot.  The flag is a
    single boolean: it is cleared whatever other operations of the key are
    still in flight.  The callback that does not run to its end on success is
    the one of the read made for [onFileRemove]: [removeFile] throws in it,
    and the key is left marked busy, with its queue as it was. *)
Theorem completion_clears_flag_and_queue cfg s op o error data :
  inflight s !! op = Some o →
  own_key (op_key o) →
  let s' := complete cfg op error data s in
  (callback_returns o error →
     isFileAccessing s' !! op_key o = None ∧
     prop (hasQueue s') (op_key o) = Undefined) ∧
  (o = OpReadFile (op_key o) EvictCallback → error = None →
     isFileAccessing s' !! op_key o = Some true ∧
     hasQueue s' = hasQueue s).
Proof.
  intros Hop _ s'. split.
  - intros Hret. unfold s'.
    destruct o as [k cb|k v|k]; cbn [op_key callback_returns] in *.
    + rewrite (complete_read cfg op k cb error data s Hop).
      * split; [apply onFileAccessComplete_idle | apply onFileAccessComplete_queue].
      * intros ->. by destruct Hret as [e ->].
    + subst error. erewrite complete_write by done. unfold completeWrite.
      destruct (scheduleRemoveFileCache_rest cfg k
        (onFileAccessComplete cfg k (upd_inflight (delete op) s)))
        as (_ & Hb & Hq & _).
      rewrite Hb, Hq.
      split; [apply onFileAccessComplete_idle | apply onFileAccessComplete_queue].
    + subst error. unfold complete. rewrite Hop. unfold completeRm.
      split; [apply onFileAccessComplete_idle | apply onFileAccessComplete_queue].
  - intros Ho ->. rewrite Ho in Hop. unfold s'.
    rewrite (complete_evict_read cfg op _ data s Hop). cbn.
    split; [apply lookup_insert_eq | done].
Qed.

(** In [run [Read "a"; Assign "a" b]] two reads of ["a"] are in flight.  When
    the first one finishes the flag of ["a"] is cleared although the second
    one is still in flight.  In [evicting] the read made for [onFileRemove]
    is in flight: when it succeeds ["a"] is left marked busy. *)
Lemma completion_clears_flag_and_queue_witness :
  let s := run quiet [Read "a"; Assign "a" (Buffer 1)] init in
  (inflight s !! 0 = Some (OpReadFile "a" (GetCallback 0)) ∧
   inflight s !! 1 = Some (OpReadFile "a" (SetCallback (Buffer 1))) ∧
   own_key "a" ∧
   isFileAccessing (complete quiet 0 (Some "ENOENT") Undefined s) !! "a" = None ∧
   inflight (complete quiet 0 (Some "ENOENT") Undefined s) !! 1 =
     Some (OpReadFile "a" (SetCallback (Buffer 1)))) ∧
  (inflight evicting !! 1 = Some (OpReadFile "a" EvictCallback) ∧
   isFileAccessing (complete observed 1 None (Buffer 9) evicting) !! "a" = Some true ∧
   inflight (complete observed 1 None (Buffer 9) evicting) = ∅).
Proof.
  intros s.
  assert (Hop : inflight s !! 0 = Some (OpReadFile "a" (GetCallback 0)))
    by (vm_compute; reflexivity).
  assert (Hop' : inflight evicting !! 1 = Some (OpReadFile "a" EvictCallback))
    by (vm_compute; reflexivity).
  pose proof (completion_clears_flag_and_queue quiet s 0 _ (Some "ENOENT") Undefined
                Hop own_key_a) as [Hret _].
  pose proof (completion_clears_flag_and_queue observed evicting 1 _ None (Buffer 9)
                Hop' own_key_a) as [_ Hthrow].
  destruct (Hret I) as [Hb _].
  destruct (Hthrow eq_refl eq_refl) as [Hb' _].
  split.
  - split; [exact Hop|]. split; [vm_compute; reflexivity|].
    split; [exact own_key_a|]. split; [exact Hb | vm_compute; reflexivity].
  - split; [exact Hop'|]. split; [exact Hb' | vm_compute; reflexivity].
Defined.

(** X6: the read that [handler.set] starts, for a buffer, on a busy key with
    no memory value.  When it finishes, the memory value becomes the buffer
    that was assigned, whatever the read returned.  The buffer is written
    unless it is the very value read back (the same reference). *)
Theorem set_read_then_write cfg s op k v error data :
  inflight s !! op = Some (OpReadFile k (SetCallback v)) →
  own_key k → is_buffer v →
  let s' := complete cfg op error data s in
  prop (memoryCaches s') k = v ∧
  isFileAccessing s' !! k = None ∧
  (read_back error data ≠ v →
     inflight s' = <[nextOp s := OpWriteFile k v]> (delete op (inflight s)) ∧
     log s' = log s ++ [FsWriteFile (nextOp s) k v] ++ drain_log cfg k s) ∧
  (read_back error data = v →
     inflight s' = delete op (inflight s) ∧
     log s' = log s ++ drain_log cfg k s ∧
     timers s' = timers s).
Proof.
  intros Hop _ _ s'. unfold s'. erewrite complete_read by done.
  rewrite onFileAccessComplete_memoryCaches, onFileAccessComplete_inflight,
    onFileAccessComplete_log.
  destruct (onFileAccessComplete_timer_fields cfg k
    (state_of (runReadCallback cfg (SetCallback v) k error data
       (upd_isFileAccessing (delete k) (upd_inflight (delete op) s)))))
    as (Et & _).
  rewrite Et. clear Et.
  split.
  { unfold runReadCallback. destruct error; apply writeFile_memory. }
  split; [apply onFileAccessComplete_idle|].
  set (s0 := upd_memoryCaches <[k := read_back error data]>
               (upd_isFileAccessing (delete k) (upd_inflight (delete op) s))).
  assert (Hcb : state_of (runReadCallback cfg (SetCallback v) k error data
                  (upd_isFileAccessing (delete k) (upd_inflight (delete op) s)))
                = writeFile cfg k v s0) by (by destruct error).
  rewrite Hcb. unfold writeFile.
  assert (Hm0 : prop (memoryCaches s0) k = read_back error data)
    by apply prop_insert_eq.
  rewrite Hm0. split.
  - intros Hne. rewrite strict_neq_true by done. cbn.
    match goal with |- context [scheduleRemoveMemoryCache cfg k ?s1] =>
      destruct (scheduleRemoveMemoryCache_rest cfg k s1)
        as (_ & _ & Hq & _ & Hi & _ & Hl) end.
    unfold drain_log. rewrite Hq, Hi, Hl. cbn. by rewrite <- app_assoc.
  - intros ->. rewrite strict_neq_refl. done.
Qed.

Lemma set_read_then_write_witness :
  let s := run quiet [Read "a"; Assign "a" (Buffer 1)] init in
  inflight s !! 1 = Some (OpReadFile "a" (SetCallback (Buffer 1))) ∧
  prop (memoryCaches (complete quiet 1 (Some "ENOENT") Undefined s)) "a" = Buffer 1 ∧
  log (complete quiet 1 (Some "ENOENT") Undefined s) =
    [FsReadFile 0 "a"; FsReadFile 1 "a"; FsWriteFile 2 "a" (Buffer 1)].
Proof.
  intros s.
  assert (Hop : inflight s !! 1 = Some (OpReadFile "a" (SetCallback (Buffer 1))))
    by (vm_compute; reflexivity).
  pose proof (set_read_then_write quiet s 1 "a" (Buffer 1) (Some "ENOENT") Undefined Hop
                own_key_a (ex_intro _ 1 eq_refl))
    as (Hm & _ & Hw & _).
  destruct (Hw ltac:(discriminate)) as [_ Hl].
  split; [exact Hop|]. split; [exact Hm | exact Hl].
Defined.

(** X7: a write that succeeds.  Its callback clears the flag, empties the
    queue slot and arms the file timer of the key: the timer named by the file
    slot is cleared and a new one, with the configured [fileTTL], is queued
    and stored in the slot.  The memory tier, the memory slots and the queued
    memory timers are left as they are. *)
Theorem write_success_arms_file_timer cfg s op k v data :
  timers_wf s →
  inflight s !! op = Some (OpWriteFile k v) →
  own_key k →
  let s' := complete cfg op None data s in
  isFileAccessing s' !! k = None ∧
  fileTimeLimits s' !! k = Some (Some (nextTimer s)) ∧
  timers s' !! nextTimer s = Some (FileTimer k (fileTTL cfg)) ∧
  (∀ h, fileTimeLimits s !! k = Some (Some h) → timers s' !! h = None) ∧
  (∀ h k' d, timers s !! h = Some (MemoryTimer k' d) →
             timers s' !! h = Some (MemoryTimer k' d)) ∧
  memoryTimeLimits s' = memoryTimeLimits s ∧
  memoryCaches s' = memoryCaches s ∧
  inflight s' = delete op (inflight s) ∧
  log s' = log s ++ drain_log cfg k s.
Proof.
  intros (Hq & Hmw & Hfw) Hop _ s'. unfold s'. erewrite complete_write by done.
  unfold completeWrite.
  set (s0 := onFileAccessComplete cfg k (upd_inflight (delete op) s)).
  destruct (scheduleRemoveFileCache_timers cfg k s0) as (Et & _ & Em & Ef).
  destruct (scheduleRemoveFileCache_rest cfg k s0) as (Ec & Eb & _ & _ & Ei & _ & El).
  destruct (onFileAccessComplete_timer_fields cfg k (upd_inflight (delete op) s))
    as (Ot & On & Om & Of).
  fold s0 in Ot, On, Om, Of.
  rewrite Et, Em, Ef, Ec, Eb, Ei, El, Ot, On, Om, Of. unfold s0.
  rewrite onFileAccessComplete_memoryCaches, onFileAccessComplete_inflight,
    onFileAccessComplete_log.
  split; [apply onFileAccessComplete_idle|].
  split; [apply lookup_insert_eq|]. split; [apply lookup_insert_eq|].
  split.
  { intros h Hs. cbn [timers fileTimeLimits nextTimer upd_inflight]. rewrite Hs.
    destruct (Hfw _ _ Hs) as [Hlt _].
    rewrite lookup_insert_ne by lia. cbn. apply lookup_delete_eq. }
  split; [|done].
  intros h k' d Hh. cbn [timers fileTimeLimits nextTimer upd_inflight].
  pose proof (Hq _ _ Hh) as Hlt. rewrite lookup_insert_ne by lia.
  destruct (fileTimeLimits s !! k) as [[h0|]|] eqn:Hs; cbn; [|done..].
  destruct (decide (h0 = h)) as [->|Hne].
  - destruct (Hfw _ _ Hs) as [_ Hty]. destruct (Hty _ Hh) as [d' Hd']. discriminate Hd'.
  - by rewrite lookup_delete_ne.
Qed.

(** A write of ["a"] is in flight (op 2) while memory timer 0 is queued; it
    succeeds: file timer 1 is queued for ["a"] and memory timer 0 stays. *)
Lemma write_success_arms_file_timer_witness :
  let s := run quiet [Read "a"; Assign "a" (Buffer 1); IoDone 1 None (Buffer 9)] init in
  inflight s !! 2 = Some (OpWriteFile "a" (Buffer 1)) ∧
  timers s = {[ 0 := MemoryTimer "a" 10000 ]} ∧
  fileTimeLimits (complete quiet 2 None Undefined s) !! "a" = Some (Some 1) ∧
  timers (complete quiet 2 None Undefined s) !! 1 = Some (FileTimer "a" 600000) ∧
  timers (complete quiet 2 None Undefined s) !! 0 = Some (MemoryTimer "a" 10000).
Proof.
  intros s.
  assert (Hop : inflight s !! 2 = Some (OpWriteFile "a" (Buffer 1)))
    by (vm_compute; reflexivity).
  assert (Hwf : timers_wf s) by apply run_wf, timers_wf_init.
  pose proof (write_success_arms_file_timer quiet s 2 "a" (Buffer 1) Undefined Hwf Hop
                own_key_a)
    as (_ & Hslot & Hnew & _ & Hkeep & _).
  split; [exact Hop|]. split; [vm_compute; reflexivity|].
  split; [exact Hslot|]. split; [exact Hnew|].
  apply (Hkeep 0 "a" 10000%Z). vm_compute; reflexivity.
Defined.





(** ** One memory timer per key *)

Section MemoryTimers.

Variable cfg : config.

Lemma memory_timers_slotted_fields s s' :
  timers s' = timers s → memoryTimeLimits s' = memoryTimeLimits s →
  memory_timers_slotted cfg s → memory_timers_slotted cfg s'.
Proof. unfold memory_timers_slotted. intros -> ->. done. Qed.

Lemma scheduleRemoveMemoryCache_slotted k s :
  memory_timers_slotted cfg s →
  memory_timers_slotted cfg (scheduleRemoveMemoryCache cfg k s).
Proof.
  intros Hinv h k' d.
  destruct (scheduleRemoveMemoryCache_timers cfg k s) as (Et & _ & Em & _).
  rewrite Et, Em, lookup_insert. case_decide as Hh.
  - intros [= <- <-]. subst h. by rewrite lookup_insert_eq.
  - intros Hq. pose proof (cleared_lookup_Some _ _ _ _ Hq) as Hq'.
    destruct (Hinv _ _ _ Hq') as [Hslot Hd]. split; [|done].
    destruct (decide (k' = k)) as [->|Hne].
    + rewrite Hslot in Hq. cbn in Hq. by rewrite lookup_delete_eq in Hq.
    + by rewrite lookup_insert_ne.
Qed.

Lemma scheduleRemoveFileCache_slotted k s :
  memory_timers_slotted cfg s →
  memory_timers_slotted cfg (scheduleRemoveFileCache cfg k s).
Proof.
  intros Hinv h k' d.
  destruct (scheduleRemoveFileCache_timers cfg k s) as (Et & _ & Em & _).
  rewrite Et, Em, lookup_insert. case_decide as Hh; [done|].
  intros Hq%cleared_lookup_Some. by apply Hinv.
Qed.

Lemma writeFile_slotted k v s :
  memory_timers_slotted cfg s → memory_timers_slotted cfg (writeFile cfg k v s).
Proof.
  intros Hinv. unfold writeFile. case_match; [|done].
  cbn. by apply scheduleRemoveMemoryCache_slotted.
Qed.

Lemma handler_set_slotted k v s :
  memory_timers_slotted cfg s → memory_timers_slotted cfg (handler_set cfg k v s).
Proof.
  intros Hinv. unfold handler_set.
  set (s0 := if onSet cfg then emit (CallOnSet k v) s else s).
  assert (H0 : memory_timers_slotted cfg s0) by (unfold s0; by destruct (onSet cfg)).
  clearbody s0. case_bool_decide; [|exact H0].
  case_match; [by apply writeFile_slotted | exact H0].
Qed.

Lemma onFileAccessComplete_slotted k s :
  memory_timers_slotted cfg s →
  memory_timers_slotted cfg (onFileAccessComplete cfg k s).
Proof.
  destruct (onFileAccessComplete_timer_fields cfg k s) as (Et & _ & Em & _).
  by apply memory_timers_slotted_fields.
Qed.

Lemma runReadCallback_slotted cb k error data s :
  memory_timers_slotted cfg s →
  memory_timers_slotted cfg (state_of (runReadCallback cfg cb k error data s)).
Proof.
  intros Hinv. unfold runReadCallback.
  destruct cb as [content|p|], error as [e|]; cbn [state_of].
  - by apply writeFile_slotted.
  - by apply writeFile_slotted.
  - unfold resolve. by repeat case_match.
  - by apply scheduleRemoveFileCache_slotted, scheduleRemoveMemoryCache_slotted.
  - done.
  - done.
Qed.

Lemma complete_slotted op error data s :
  memory_timers_slotted cfg s →
  memory_timers_slotted cfg (complete cfg op error data s).
Proof.
  intros Hinv. unfold complete.
  destruct (inflight s !! op) as [[k cb|k v|k]|]; [| | |done].
  - apply completeRead_keeps; [|apply onFileAccessComplete_slotted].
    by apply runReadCallback_slotted.
  - unfold completeWrite. destruct error; [done|].
    by apply scheduleRemoveFileCache_slotted, onFileAccessComplete_slotted.
  - unfold completeRm. destruct error; [done|].
    by apply onFileAccessComplete_slotted.
Qed.

Lemma fire_slotted h s :
  memory_timers_slotted cfg s → memory_timers_slotted cfg (fire cfg h s).
Proof.
  intros Hinv. unfold fire.
  destruct (timers s !! h) as [[k d|k d]|] eqn:Hh; [| |done].
  - destruct (Hinv _ _ _ Hh) as [Hslot _].
    unfold fireMemoryTimer. intros h' k' d'.
    destruct (onMemoryRemove cfg); cbn.
    all: intros Hq; apply lookup_delete_Some in Hq as [Hne Hq];
      destruct (Hinv _ _ _ Hq) as [Hslot' Hd]; split; [|done];
      destruct (decide (k' = k)) as [->|Hk]; [congruence|];
      by rewrite lookup_insert_ne.
  - unfold fireFileTimer, removeFile.
    assert (H1 : memory_timers_slotted cfg (upd_timers (delete h) s)).
    { intros h' k' d' Hq. cbn in Hq. apply lookup_delete_Some in Hq as [_ Hq].
      exact (Hinv _ _ _ Hq). }
    repeat case_match; exact H1.
Qed.

Lemma handler_get_slotted k s :
  memory_timers_slotted cfg s →
  memory_timers_slotted cfg (snd (handler_get cfg k s)).
Proof.
  intros Hinv. unfold handler_get, newPromise.
  destruct (promiseCaches s !! k); [done|].
  destruct (is_defined (prop (memoryCaches s) k)); cbn.
  - by apply scheduleRemoveMemoryCache_slotted.
  - done.
Qed.

Lemma run_slotted es s :
  memory_timers_slotted cfg s → memory_timers_slotted cfg (run cfg es s).
Proof.
  revert s. induction es as [|e es IH]; intros s Hinv; [done|].
  cbn. apply IH. destruct e; cbn.
  - by apply handler_set_slotted.
  - by apply handler_get_slotted.
  - by apply complete_slotted.
  - by apply fire_slotted.
Qed.

End MemoryTimers.

(** X10: debouncing of the memory tier.  From a fresh cache, a queued memory
    timer is always the one its key's slot names and carries the configured
    [memoryTTL]; so at most one memory timer is queued per key, all earlier
    ones having been cleared. *)
Theorem one_memory_timer_per_key cfg s h k d :
  reachable cfg s →
  timers s !! h = Some (MemoryTimer k d) →
  memoryTimeLimits s !! k = Some (Some h) ∧
  d = memoryTTL cfg ∧
  ∀ h' d', timers s !! h' = Some (MemoryTimer k d') → h' = h.
Proof.
  intros [es ->] Hh.
  assert (Hinv : memory_timers_slotted cfg (run cfg es init)).
  { apply run_slotted. intros h0 k0 d0 H0. cbn in H0.
    by rewrite lookup_empty in H0. }
  destruct (Hinv _ _ _ Hh) as [Hslot Hd]. split; [done|]. split; [done|].
  intros h' d' Hh'. destruct (Hinv _ _ _ Hh') as [Hslot' _]. congruence.
Qed.

(** After a read-through and two writes of ["a"], three memory timers were
    armed (0, 2 and 3); only the last one is queued. *)
Lemma one_memory_timer_per_key_witness :
  let s := run quiet [Read "a"; IoDone 0 None (Buffer 9); TimerDue 1;
                      Assign "a" (Buffer 1); Assign "a" (Buffer 2)] init in
  reachable quiet s ∧
  timers s = {[ 3 := MemoryTimer "a" 10000 ]} ∧
  memoryTimeLimits s !! "a" = Some (Some 3).
Proof.
  intros s.
  assert (Hr : reachable quiet s) by (by eexists).
  assert (Hh : timers s !! 3 = Some (MemoryTimer "a" 10000))
    by (vm_compute; reflexivity).
  pose proof (one_memory_timer_per_key quiet s 3 "a" 10000%Z Hr Hh) as (Hslot & _).
  split; [exact Hr|]. split; [vm_compute; reflexivity | exact Hslot].
Defined.

(** ** One file timer per key *)

(** X11: debouncing of the file tier.  On a cache used as documented, a
    queued file timer is always the one its key's slot names and carries the
    configured [fileTTL]; so at most one file timer is queued per key, all
    earlier ones having been cleared. *)
Theorem one_file_timer_per_key cfg s h k d :
  in_use cfg s →
  timers s !! h = Some (FileTimer k d) →
  fileTimeLimits s !! k = Some (Some h) ∧
  d = fileTTL cfg ∧
  ∀ h' d', timers s !! h' = Some (FileTimer k d') → h' = h.
Proof.
  intros Huse Hh.
  pose proof (reachable_file_slotted cfg s (in_use_reachable cfg s Huse)) as Hinv.
  destruct (Hinv _ _ _ Hh) as [Hslot Hd]. split; [done|]. split; [done|].
  intros h' d' Hh'. destruct (Hinv _ _ _ Hh') as [Hslot' _]. congruence.
Qed.

(** After a read-through and a write of ["a"], two file timers were armed (1
    and 3); only the second is queued. *)
Lemma one_file_timer_per_key_witness :
  let s := run quiet [Read "a"; Assign "a" (Buffer 1); IoDone 0 None (Buffer 9);
                      IoDone 1 None (Buffer 9); IoDone 2 None Undefined] init in
  in_use quiet s ∧
  timers s !! 1 = None ∧
  timers s !! 3 = Some (FileTimer "a" 600000) ∧
  fileTimeLimits s !! "a" = Some (Some 3).
Proof.
  intros s.
  assert (Huse : in_use quiet s).
  { eexists. split; [|reflexivity].
    repeat constructor; try exact own_key_a. by exists 1. }
  assert (Hh : timers s !! 3 = Some (FileTimer "a" 600000))
    by (vm_compute; reflexivity).
  pose proof (one_file_timer_per_key quiet s 3 "a" 600000%Z Huse Hh)
    as (Hslot & _).
  split; [exact Huse|]. split; [vm_compute; reflexivity|].
  split; [exact Hh | exact Hslot].
Defined.

(** ** What a cache never does *)

(** X12: on a cache used as documented, whatever the callers and the file
    system do, a promise returned by [get] is never resolved with data: it is
    pending, or resolved with [null]. *)
Theorem promise_never_resolved_with_data cfg s p v :
  in_use cfg s →
  promises s !! p = Some (Fulfilled v) →
  v = Null.
Proof.
  intros Huse Hp.
  destruct (reachable_no_data cfg s (in_use_reachable cfg s Huse) p _ Hp) as [H|H].
  - discriminate H.
  - by injection H.
Qed.

Lemma promise_never_resolved_with_data_witness :
  let s := run quiet [Read "a"; IoDone 0 (Some "ENOENT") Undefined;
                      Read "b"; IoDone 1 None (Buffer 9)] init in
  in_use quiet s ∧
  promises s !! 0 = Some (Fulfilled Null) ∧
  promises s !! 1 = Some Pending ∧
  memoryCaches s !! "b" = Some (Buffer 9) ∧
  Null = Null.
Proof.
  intros s.
  assert (Huse : in_use quiet s).
  { eexists. split; [|reflexivity].
    repeat constructor; first [exact own_key_a | exact own_key_b]. }
  assert (Hp : promises s !! 0 = Some (Fulfilled Null)) by (vm_compute; reflexivity).
  split; [exact Huse|]. split; [exact Hp|].
  split; [vm_compute; reflexivity|]. split; [vm_compute; reflexivity|].
  exact (promise_never_resolved_with_data quiet s 0 Null Huse Hp).
Defined.

(** X13: the documented use is closed under the program.  On a cache used
    as documented, whatever the file system and the timers do, the program
    itself only ever uses keys that name no property of [Object.prototype],
    in its six objects, in the operations it starts, in the timers it queues
    and in the calls it makes, and every content it queues, hands to
    [fs.writeFile] or passes to [onSet] is a buffer. *)
Theorem documented_use_is_closed cfg s :
  in_use cfg s → documented s.
Proof.
  intros (es & Hes & ->).
  assert (Hgen : ∀ s0, documented s0 → documented (run cfg es s0)).
  { induction Hes as [|e es He Hes IH]; intros s0 Hd; [done|].
    cbn. apply IH. by apply step_documented. }
  apply Hgen, documented_init.
Qed.

(** A read-through of ["a"], the firing of its file timer and an assignment:
    the one write handed to [fs.writeFile] is a buffer for ["a"]. *)
Lemma documented_use_is_closed_witness :
  let s := run observed [Read "a"; IoDone 0 None (Buffer 9); TimerDue 1;
                         Assign "a" (Buffer 1)] init in
  in_use observed s ∧
  log s = [FsReadFile 0 "a"; FsReadFile 1 "a"; CallOnSet "a" (Buffer 1);
           FsWriteFile 2 "a" (Buffer 1)] ∧
  Forall documented_effect (log s) ∧
  map_Forall (λ _ o, documented_op o) (inflight s).
Proof.
  intros s.
  assert (Huse : in_use observed s).
  { eexists. split; [|reflexivity].
    repeat constructor; try exact own_key_a. by exists 1. }
  pose proof (documented_use_is_closed observed s Huse) as Hd.
  split; [exact Huse|]. split; [vm_compute; reflexivity|].
  split; [exact (doc_log s Hd) | exact (doc_inflight s Hd)].
Defined.

(** ** Keys do not interfere *)

Section Isolation.

Variable cfg : config.

Ltac others :=
  intros ? ?; unfold slots; cbn;
  repeat first [rewrite lookup_insert_ne by done
               |rewrite lookup_delete_ne by done];
  reflexivity.

Lemma others_kept_refl k s : others_kept k s s.
Proof. by intros k' Hk. Qed.

Lemma others_kept_trans k s1 s2 s3 :
  others_kept k s1 s2 → others_kept k s2 s3 → others_kept k s1 s3.
Proof. intros H12 H23 k' Hk. rewrite H23 by done. by apply H12. Qed.

Lemma scheduleRemoveMemoryCache_others k s :
  others_kept k s (scheduleRemoveMemoryCache cfg k s).
Proof.
  unfold scheduleRemoveMemoryCache, clearIfSet, clearTimeout, setTimeout.
  destruct (memoryTimeLimits s !! k) as [[h|]|]; others.
Qed.

Lemma scheduleRemoveFileCache_others k s :
  others_kept k s (scheduleRemoveFileCache cfg k s).
Proof.
  unfold scheduleRemoveFileCache, clearIfSet, clearTimeout, setTimeout.
  destruct (fileTimeLimits s !! k) as [[h|]|]; others.
Qed.

Lemma readFile_others k cb s : others_kept k s (readFile k cb s).
Proof. rewrite readFile_eq. others. Qed.

Lemma removeFile_others k s : others_kept k s (state_of (removeFile k s)).
Proof. rewrite removeFile_eq. others. Qed.

Lemma writeFile_others k v s : others_kept k s (writeFile cfg k v s).
Proof.
  unfold writeFile. case_match; [|apply others_kept_refl].
  eapply others_kept_trans; [|apply scheduleRemoveMemoryCache_others]. others.
Qed.

Lemma handler_set_others k v s : others_kept k s (handler_set cfg k v s).
Proof.
  unfold handler_set.
  set (s0 := if onSet cfg then emit (CallOnSet k v) s else s).
  assert (H0 : others_kept k s s0) by (unfold s0; destruct (onSet cfg); others).
  clearbody s0. eapply others_kept_trans; [exact H0|].
  case_bool_decide; [|others].
  eapply others_kept_trans with (s2 := upd_isFileAccessing <[k := true]> s0);
    [others|].
  case_match; [apply writeFile_others | apply readFile_others].
Qed.

Lemma onFileAccessComplete_others k s :
  others_kept k s (onFileAccessComplete cfg k s).
Proof.
  rewrite onFileAccessComplete_eq. cbn.
  destruct (is_defined (prop (hasQueue s) k)), (onSet cfg); others.
Qed.

Lemma runReadCallback_others cb k error data s :
  others_kept k s (state_of (runReadCallback cfg cb k error data s)).
Proof.
  unfold runReadCallback. destruct cb as [content|p|], error as [e|]; cbn [state_of].
  - eapply others_kept_trans; [|apply writeFile_others]. others.
  - eapply others_kept_trans; [|apply writeFile_others]. others.
  - unfold resolve. repeat case_match; others.
  - eapply others_kept_trans; [|apply scheduleRemoveFileCache_others].
    eapply others_kept_trans; [|apply scheduleRemoveMemoryCache_others]. others.
  - apply others_kept_refl.
  - eapply others_kept_trans; [|apply removeFile_others]. others.
Qed.

Lemma handler_get_others k s : others_kept k s (snd (handler_get cfg k s)).
Proof.
  unfold handler_get, newPromise.
  destruct (promiseCaches s !! k); [apply others_kept_refl|].
  destruct (is_defined (prop (memoryCaches s) k)); cbn.
  - eapply others_kept_trans; [|apply scheduleRemoveMemoryCache_others]. others.
  - rewrite readFile_eq. others.
Qed.

Lemma complete_others op o error data s :
  inflight s !! op = Some o →
  others_kept (op_key o) s (complete cfg op error data s).
Proof.
  intros Hop. unfold complete. rewrite Hop.
  destruct o as [k cb|k v|k]; cbn [op_key].
  - apply (completeRead_keeps cfg (others_kept k s)).
    + eapply others_kept_trans; [|apply runReadCallback_others]. others.
    + intros s' Hs'.
      eapply others_kept_trans; [exact Hs'|apply onFileAccessComplete_others].
  - unfold completeWrite. destruct error; [others|].
    eapply others_kept_trans; [|apply scheduleRemoveFileCache_others].
    eapply others_kept_trans; [|apply onFileAccessComplete_others]. others.
  - unfold completeRm. destruct error; [others|].
    eapply others_kept_trans; [|apply onFileAccessComplete_others]. others.
Qed.

Lemma fire_others h t s :
  timers s !! h = Some t →
  others_kept (timer_key t) s (fire cfg h s).
Proof.
  intros Hh. unfold fire. rewrite Hh. destruct t as [k d|k d]; cbn [timer_key].
  - unfold fireMemoryTimer. destruct (onMemoryRemove cfg); others.
  - unfold fireFileTimer. rewrite readFile_eq, removeFile_eq.
    repeat case_match; others.
Qed.

End Isolation.

(** X14: keys do not interfere.  An event changes what the six objects of the
    cache hold for the key it is about, and for no other key: the stored
    promise, memory value, timer slots, busy flag and queued content of every
    other key are what they were.  An event about nothing (an unknown handle)
    changes nothing at all. *)
Theorem step_keeps_other_keys cfg s e k :
  (∀ k0, event_key s e = Some k0 → own_key k0) → own_key k →
  event_key s e ≠ Some k →
  slots (step cfg s e) k = slots s k.
Proof.
  intros _ _ Hk. destruct e as [k0 v|k0|op error data|h]; cbn in Hk |- *.
  - apply (handler_set_others cfg k0 v s). congruence.
  - apply (handler_get_others cfg k0 s). congruence.
  - destruct (inflight s !! op) as [o|] eqn:Hop.
    + apply (complete_others cfg op o error data s Hop). cbn in Hk. congruence.
    + unfold complete. by rewrite Hop.
  - destruct (timers s !! h) as [t|] eqn:Hh.
    + apply (fire_others cfg h t s Hh). cbn in Hk. congruence.
    + unfold fire. by rewrite Hh.
Qed.

(** Keys ["a"] and ["b"] both went through a read-through.  A write of ["a"]
    completes and the file timer of ["a"] fires: what the cache holds for
    ["b"] has not changed. *)
Lemma step_keeps_other_keys_witness :
  let s := run quiet [Read "a"; Read "b"; IoDone 0 None (Buffer 8);
                      IoDone 1 None (Buffer 9)] init in
  event_key s (TimerDue 1) = Some "a" ∧
  own_key "a" ∧ own_key "b" ∧
  slots s "b" = (Some 1, Some (Buffer 9), Some (Some 2), Some (Some 3), None, None) ∧
  slots (step quiet s (TimerDue 1)) "b" = slots s "b".
Proof.
  intros s.
  assert (He : event_key s (TimerDue 1) = Some "a") by (vm_compute; reflexivity).
  split; [exact He|]. split; [exact own_key_a|]. split; [exact own_key_b|].
  split; [vm_compute; reflexivity|].
  apply (step_keeps_other_keys quiet s (TimerDue 1) "b").
  - intros k0. rewrite He. intros [= <-]. exact own_key_a.
  - exact own_key_b.
  - rewrite He. discriminate.
Defined.

(** ** Nothing reaches the file system before the first [get] *)

Section LogCovered.

Variable cfg : config.
Variable P : gmap string nat.

Lemma log_covered_log s s' : log s' = log s → log_covered P s → log_covered P s'.
Proof. unfold log_covered. intros ->. done. Qed.

Lemma log_covered_emit e s :
  (∀ k, fs_key e = Some k → is_Some (P !! k)) →
  log_covered P s → log_covered P (emit e s).
Proof.
  intros He Hc e' k Hin Hk. cbn in Hin. apply elem_of_app in Hin as [Hin|Hin].
  - by apply (Hc e').
  - apply list_elem_of_singleton in Hin as ->. by apply He.
Qed.

Lemma scheduleRemoveMemoryCache_log_covered k s :
  log_covered P s → log_covered P (scheduleRemoveMemoryCache cfg k s).
Proof.
  destruct (scheduleRemoveMemoryCache_rest cfg k s) as (_ & _ & _ & _ & _ & _ & El).
  by apply log_covered_log.
Qed.

Lemma scheduleRemoveFileCache_log_covered k s :
  log_covered P s → log_covered P (scheduleRemoveFileCache cfg k s).
Proof.
  destruct (scheduleRemoveFileCache_rest cfg k s) as (_ & _ & _ & _ & _ & _ & El).
  by apply log_covered_log.
Qed.

Lemma readFile_log_covered k cb s :
  is_Some (P !! k) → log_covered P s → log_covered P (readFile k cb s).
Proof.
  intros Hk Hc. rewrite readFile_eq. apply log_covered_emit; [|done].
  by intros k' [= <-].
Qed.

Lemma removeFile_log_covered k s :
  log_covered P s → log_covered P (state_of (removeFile k s)).
Proof. intros Hc. rewrite removeFile_eq. by apply log_covered_emit. Qed.

Lemma writeFile_log_covered k v s :
  is_Some (P !! k) → log_covered P s → log_covered P (writeFile cfg k v s).
Proof.
  intros Hk Hc. unfold writeFile. case_match; [|done]. cbn.
  apply scheduleRemoveMemoryCache_log_covered.
  apply (log_covered_emit (FsWriteFile (nextOp s) k v)); [|done].
  by intros k' [= <-].
Qed.

Lemma onFileAccessComplete_log_covered k s :
  log_covered P s → log_covered P (onFileAccessComplete cfg k s).
Proof.
  intros Hc. rewrite onFileAccessComplete_eq. cbn.
  destruct (is_defined (prop (hasQueue s) k)), (onSet cfg); try done.
  by apply (log_covered_emit (CallOnSet k (prop (hasQueue s) k)) s).
Qed.

Lemma runReadCallback_log_covered cb k error data s :
  is_Some (P !! k) → log_covered P s →
  log_covered P (state_of (runReadCallback cfg cb k error data s)).
Proof.
  intros Hk Hc. unfold runReadCallback.
  destruct cb as [content|p|], error as [e|]; cbn [state_of].
  - by apply writeFile_log_covered.
  - by apply writeFile_log_covered.
  - unfold resolve. by repeat case_match.
  - by apply scheduleRemoveFileCache_log_covered, scheduleRemoveMemoryCache_log_covered.
  - done.
  - apply removeFile_log_covered.
    by apply (log_covered_emit (CallOnFileRemove k data) s).
Qed.

Lemma complete_log_covered op error data s :
  covers P s → log_covered P s → log_covered P (complete cfg op error data s).
Proof.
  intros Hcov Hc. unfold complete.
  destruct (inflight s !! op) as [o|] eqn:Hop; [|done].
  assert (Hk : is_Some (P !! op_key o)) by (destruct Hcov as (_ & _ & Hi & _); eauto).
  destruct o as [k cb|k v|k]; cbn in Hk.
  - apply completeRead_keeps; [|apply onFileAccessComplete_log_covered].
    by apply runReadCallback_log_covered.
  - unfold completeWrite. destruct error as [e|].
    + by apply (log_covered_emit (Throw e)).
    + by apply scheduleRemoveFileCache_log_covered, onFileAccessComplete_log_covered.
  - unfold completeRm. destruct error as [e|].
    + by apply (log_covered_emit (Throw e)).
    + by apply onFileAccessComplete_log_covered.
Qed.

Lemma fire_log_covered h s :
  covers P s → log_covered P s → log_covered P (fire cfg h s).
Proof.
  intros Hcov Hc. unfold fire.
  destruct (timers s !! h) as [t|] eqn:Hh; [|done].
  assert (Hk : is_Some (P !! timer_key t)) by (destruct Hcov as (_ & _ & _ & Ht); eauto).
  destruct t as [k d|k d]; cbn in Hk.
  - unfold fireMemoryTimer. destruct (onMemoryRemove cfg); [|done].
    by apply (log_covered_emit (CallOnMemoryRemove k (prop (memoryCaches s) k))
                (upd_timers (delete h) s)).
  - unfold fireFileTimer.
    assert (H1 : log_covered P (upd_timers (delete h) s)) by done.
    case_match; [|exact H1].
    case_match; [by apply (readFile_log_covered k EvictCallback)|].
    by apply (removeFile_log_covered k).
Qed.

Lemma handler_set_log_covered k v s :
  covers P s → log_covered P s → log_covered P (handler_set cfg k v s).
Proof.
  intros Hcov Hc. unfold handler_set.
  set (s0 := if onSet cfg then emit (CallOnSet k v) s else s).
  assert (H0 : log_covered P s0).
  { unfold s0. destruct (onSet cfg); [|done].
    by apply (log_covered_emit (CallOnSet k v)). }
  assert (Hflag : isFileAccessing s0 = isFileAccessing s)
    by (unfold s0; by destruct (onSet cfg)).
  clearbody s0. case_bool_decide as Hbusy; [|exact H0].
  assert (Hk : is_Some (P !! k)).
  { destruct Hcov as (Hb & _). apply Hb. by rewrite <- Hflag. }
  destruct (is_defined (prop (memoryCaches (upd_isFileAccessing <[k := true]> s0)) k)).
  - by apply writeFile_log_covered.
  - by apply readFile_log_covered.
Qed.

End LogCovered.

Section BeforeGet.

Variable cfg : config.

Lemma log_covered_mono (P Q : gmap string nat) s :
  (∀ k, is_Some (P !! k) → is_Some (Q !! k)) → log_covered P s → log_covered Q s.
Proof. intros HPQ Hc e k Hin Hk. eauto. Qed.

Lemma handler_get_log_covered k s :
  log_covered (promiseCaches s) s →
  log_covered (promiseCaches (snd (handler_get cfg k s))) (snd (handler_get cfg k s)).
Proof.
  intros Hc. unfold handler_get, newPromise.
  destruct (promiseCaches s !! k) as [p|] eqn:Hp; [done|].
  assert (Hc' : log_covered (<[k := nextPromise s]> (promiseCaches s)) s).
  { apply (log_covered_mono (promiseCaches s)); [|done].
    intros k'. rewrite lookup_insert. by case_decide. }
  assert (Hk : is_Some (<[k := nextPromise s]> (promiseCaches s) !! k))
    by (rewrite lookup_insert_eq; eauto).
  destruct (is_defined (prop (memoryCaches s) k)); cbn.
  - rewrite scheduleRemoveMemoryCache_promiseCaches. cbn.
    by apply scheduleRemoveMemoryCache_log_covered.
  - by apply (readFile_log_covered _ k (GetCallback (nextPromise s))
                (bump_nextPromise (upd_promises <[nextPromise s := Pending]> s))).
Qed.

Lemma step_log_covered e s :
  covers (promiseCaches s) s → log_covered (promiseCaches s) s →
  log_covered (promiseCaches (step cfg s e)) (step cfg s e).
Proof.
  intros Hcov Hc. destruct e; cbn.
  - rewrite handler_set_promiseCaches. by apply handler_set_log_covered.
  - by apply handler_get_log_covered.
  - rewrite complete_promiseCaches. by apply complete_log_covered.
  - rewrite fire_promiseCaches. by apply fire_log_covered.
Qed.

(** A promise is stored for a key by [get] on that key only. *)
Lemma step_promise_origin e k s :
  is_Some (promiseCaches (step cfg s e) !! k) →
  is_Some (promiseCaches s !! k) ∨ e = Read k.
Proof.
  destruct e as [k0 v|k0|op error data|h]; cbn.
  - rewrite handler_set_promiseCaches. by left.
  - destruct (decide (k0 = k)) as [->|Hne]; [by right|].
    intros Hs. left. revert Hs. unfold handler_get, newPromise.
    destruct (promiseCaches s !! k0); [done|].
    destruct (is_defined (prop (memoryCaches s) k0)); cbn.
    + rewrite scheduleRemoveMemoryCache_promiseCaches. cbn.
      by rewrite lookup_insert_ne.
    + by rewrite lookup_insert_ne.
  - rewrite complete_promiseCaches. by left.
  - rewrite fire_promiseCaches. by left.
Qed.

Lemma run_before_get es k s :
  Read k ∉ es →
  covers (promiseCaches s) s → log_covered (promiseCaches s) s →
  promiseCaches s !! k = None →
  let s' := run cfg es s in
  covers (promiseCaches s') s' ∧ log_covered (promiseCaches s') s' ∧
  promiseCaches s' !! k = None.
Proof.
  revert s. induction es as [|e es IH]; intros s Hno Hcov Hc Hp; [done|].
  cbn. apply not_elem_of_cons in Hno as [Hne Hno].
  apply IH; [done|by apply step_covers|by apply step_log_covered|].
  destruct (promiseCaches (step cfg s e) !! k) as [p|] eqn:Hs; [|done].
  destruct (step_promise_origin e k s) as [[q Hq]|He]; [by rewrite Hs|congruence|].
  by subst e.
Qed.

End BeforeGet.

(** X15: nothing reaches the file system before the first [get].  On a cache
    used as documented, as long as [get(k)] has not been called, no [fs] call
    was ever made for [k], whatever was assigned to it: the key has no memory
    value, is not marked busy and has no operation in flight and no timer. *)
Theorem no_file_access_before_get cfg es k :
  Forall as_documented es → own_key k →
  Read k ∉ es →
  let s := run cfg es init in
  (∀ e, e ∈ log s → fs_key e ≠ Some k) ∧
  (∀ op o, inflight s !! op = Some o → op_key o ≠ k) ∧
  (∀ h t, timers s !! h = Some t → timer_key t ≠ k) ∧
  memoryCaches s !! k = None ∧
  isFileAccessing s !! k = None.
Proof.
  intros _ _ Hno s.
  assert (Hcov0 : covers (promiseCaches init) init)
    by (apply (reachable_covers cfg init); by exists []).
  assert (Hc0 : log_covered (promiseCaches init) init).
  { intros e k' Hin. cbn in Hin. by apply elem_of_nil in Hin. }
  destruct (run_before_get cfg es k init Hno Hcov0 Hc0 (lookup_empty k))
    as ((Hb & Hm & Hi & Ht) & Hc & Hp).
  fold s in Hb, Hm, Hi, Ht, Hc, Hp.
  assert (Hnot : ¬ is_Some (promiseCaches s !! k)) by (rewrite Hp; by intros [? ?]).
  split; [|split; [|split; [|split]]].
  - intros e Hin Hk. apply Hnot. by apply (Hc e).
  - intros op o Hop <-. apply Hnot. by apply (Hi op).
  - intros h t Hh <-. apply Hnot. by apply (Ht h).
  - destruct (memoryCaches s !! k) eqn:E; [|done]. destruct Hnot. apply Hm. eauto.
  - destruct (isFileAccessing s !! k) eqn:E; [|done]. destruct Hnot. apply Hb. eauto.
Qed.

(** Two assignments to ["a"], a read-through of ["b"] and the firing of the
    file timer of ["b"]: the one [fs] call in the log is about ["b"], and the
    second content assigned to ["a"] is still in the queue. *)
Lemma no_file_access_before_get_witness :
  let es := [Assign "a" (Buffer 1); Read "b"; Assign "a" (Buffer 2);
             IoDone 0 None (Buffer 9); TimerDue 1] in
  (Forall as_documented es ∧ own_key "a" ∧ Read "a" ∉ es) ∧
  log (run quiet es init) = [FsReadFile 0 "b"; Throw "ERR_INVALID_ARG_TYPE"] ∧
  hasQueue (run quiet es init) !! "a" = Some (Buffer 2) ∧
  memoryCaches (run quiet es init) !! "a" = None ∧
  isFileAccessing (run quiet es init) !! "a" = None.
Proof.
  intros es.
  assert (Hdoc : Forall as_documented es).
  { repeat constructor; first [exact own_key_a | exact own_key_b | by eexists]. }
  assert (Hno : Read "a" ∉ es).
  { unfold es. rewrite !not_elem_of_cons. repeat (split; [discriminate|]).
    apply not_elem_of_nil. }
  pose proof (no_file_access_before_get quiet es "a" Hdoc own_key_a Hno)
    as (_ & _ & _ & Hm & Hb).
  split; [split; [exact Hdoc | split; [exact own_key_a | exact Hno]]|].
  split; [vm_compute; reflexivity|].
  split; [vm_compute; reflexivity|]. split; [exact Hm | exact Hb].
Defined.

(** ** Timers of other keys are never cancelled *)

Section TimersKept.

Variable cfg : config.

Lemma timers_kept_same k s s' : timers s' = timers s → timers_kept k s s'.
Proof. intros E h t Hh _. by rewrite E. Qed.

Lemma timers_kept_trans k s1 s2 s3 :
  timers_kept k s1 s2 → timers_kept k s2 s3 → timers_kept k s1 s3.
Proof. intros H12 H23 h t Hh Hk. apply H23; [|done]. by apply H12. Qed.

Lemma scheduleRemoveMemoryCache_timers_kept k s :
  timers_wf s → timers_kept k s (scheduleRemoveMemoryCache cfg k s).
Proof.
  intros (Hq & Hm & _) h t Hh Hk.
  destruct (scheduleRemoveMemoryCache_timers cfg k s) as (Et & _).
  rewrite Et. pose proof (Hq _ _ Hh) as Hlt. rewrite lookup_insert_ne by lia.
  destruct (memoryTimeLimits s !! k) as [[h0|]|] eqn:Hs; cbn; [|done..].
  destruct (decide (h0 = h)) as [->|Hne]; [|by rewrite lookup_delete_ne].
  destruct (Hm _ _ Hs) as [_ Hty]. destruct (Hty _ Hh) as [d ->]. by destruct Hk.
Qed.

Lemma scheduleRemoveFileCache_timers_kept k s :
  timers_wf s → timers_kept k s (scheduleRemoveFileCache cfg k s).
Proof.
  intros (Hq & _ & Hf) h t Hh Hk.
  destruct (scheduleRemoveFileCache_timers cfg k s) as (Et & _).
  rewrite Et. pose proof (Hq _ _ Hh) as Hlt. rewrite lookup_insert_ne by lia.
  destruct (fileTimeLimits s !! k) as [[h0|]|] eqn:Hs; cbn; [|done..].
  destruct (decide (h0 = h)) as [->|Hne]; [|by rewrite lookup_delete_ne].
  destruct (Hf _ _ Hs) as [_ Hty]. destruct (Hty _ Hh) as [d ->]. by destruct Hk.
Qed.

Lemma writeFile_timers_kept k v s :
  timers_wf s → timers_kept k s (writeFile cfg k v s).
Proof.
  intros Hwf. unfold writeFile. case_match; [|by apply timers_kept_same].
  cbn. eapply timers_kept_trans;
    [|apply scheduleRemoveMemoryCache_timers_kept; by apply (timers_wf_fields s)].
  by apply timers_kept_same.
Qed.

Lemma handler_set_timers_kept k v s :
  timers_wf s → timers_kept k s (handler_set cfg k v s).
Proof.
  intros Hwf. unfold handler_set.
  set (s0 := if onSet cfg then emit (CallOnSet k v) s else s).
  assert (E0 : timers s0 = timers s) by (unfold s0; by destruct (onSet cfg)).
  assert (Hwf0 : timers_wf s0) by (unfold s0; by destruct (onSet cfg)).
  clearbody s0. eapply timers_kept_trans; [by apply timers_kept_same|].
  case_bool_decide; [|by apply timers_kept_same].
  case_match.
  - eapply timers_kept_trans; [|apply writeFile_timers_kept; by apply (timers_wf_fields s0)].
    by apply timers_kept_same.
  - by apply timers_kept_same.
Qed.

Lemma onFileAccessComplete_timers_kept k s :
  timers_kept k s (onFileAccessComplete cfg k s).
Proof.
  destruct (onFileAccessComplete_timer_fields cfg k s) as (Et & _).
  by apply timers_kept_same.
Qed.

Lemma runReadCallback_timers_kept cb k error data s :
  timers_wf s → timers_kept k s (state_of (runReadCallback cfg cb k error data s)).
Proof.
  intros Hwf. unfold runReadCallback.
  destruct cb as [content|p|], error as [e|]; cbn [state_of].
  - eapply timers_kept_trans;
      [|apply writeFile_timers_kept; by apply (timers_wf_fields s)].
    by apply timers_kept_same.
  - eapply timers_kept_trans;
      [|apply writeFile_timers_kept; by apply (timers_wf_fields s)].
    by apply timers_kept_same.
  - unfold resolve. repeat case_match; by apply timers_kept_same.
  - assert (Hwf1 : timers_wf (upd_memoryCaches <[k := data]> s))
      by (by apply (timers_wf_fields s)).
    eapply timers_kept_trans;
      [|apply scheduleRemoveFileCache_timers_kept;
        by apply scheduleRemoveMemoryCache_wf].
    eapply timers_kept_trans;
      [|by apply scheduleRemoveMemoryCache_timers_kept].
    by apply timers_kept_same.
  - by apply timers_kept_same.
  - by apply timers_kept_same.
Qed.

Lemma complete_timers_kept op o error data s :
  timers_wf s → inflight s !! op = Some o →
  timers_kept (op_key o) s (complete cfg op error data s).
Proof.
  intros Hwf Hop. unfold complete. rewrite Hop.
  assert (Hwf1 : timers_wf (upd_inflight (delete op) s))
    by (by apply (timers_wf_fields s)).
  destruct o as [k cb|k v|k]; cbn [op_key].
  - apply (completeRead_keeps cfg (timers_kept k s)).
    + eapply timers_kept_trans;
        [|apply runReadCallback_timers_kept;
          by apply (timers_wf_fields (upd_inflight (delete op) s))].
      by apply timers_kept_same.
    + intros s' Hs'.
      eapply timers_kept_trans; [exact Hs'|apply onFileAccessComplete_timers_kept].
  - unfold completeWrite. destruct error; [by apply timers_kept_same|].
    eapply timers_kept_trans;
      [|apply scheduleRemoveFileCache_timers_kept;
        by apply onFileAccessComplete_wf].
    eapply timers_kept_trans; [|apply onFileAccessComplete_timers_kept].
    by apply timers_kept_same.
  - unfold completeRm. destruct error; [by apply timers_kept_same|].
    eapply timers_kept_trans; [|apply onFileAccessComplete_timers_kept].
    by apply timers_kept_same.
Qed.

Lemma fire_timers_kept h t s :
  timers s !! h = Some t → timers_kept (timer_key t) s (fire cfg h s).
Proof.
  intros Hh h' t' Hh' Hk.
  assert (Hne : h ≠ h') by (intros ->; congruence).
  unfold fire. rewrite Hh. destruct t as [k d|k d]; cbn [timer_key] in *.
  - unfold fireMemoryTimer. destruct (onMemoryRemove cfg); cbn;
      by rewrite lookup_delete_ne.
  - unfold fireFileTimer. rewrite readFile_eq, removeFile_eq.
    repeat case_match; cbn; by rewrite lookup_delete_ne.
Qed.

Lemma handler_get_timers_kept k s :
  timers_wf s → timers_kept k s (snd (handler_get cfg k s)).
Proof.
  intros Hwf. unfold handler_get, newPromise.
  destruct (promiseCaches s !! k); [by apply timers_kept_same|].
  destruct (is_defined (prop (memoryCaches s) k)); cbn.
  - eapply timers_kept_trans;
      [|apply scheduleRemoveMemoryCache_timers_kept; by apply (timers_wf_fields s)].
    by apply timers_kept_same.
  - by apply timers_kept_same.
Qed.

End TimersKept.

(** X16: an event never cancels a timer of another key.  On a cache used as
    documented, a queued timer stays queued through every event that is about
    another key: [clearTimeout] is only ever called on a timer of the key at
    hand, and a timer leaves the queue only by firing or by being re-armed
    for its own key. *)
Theorem step_keeps_other_timers cfg s e h t :
  in_use cfg s → as_documented e →
  timers s !! h = Some t →
  event_key s e ≠ Some (timer_key t) →
  timers (step cfg s e) !! h = Some t.
Proof.
  intros Huse _ Hh Hk.
  pose proof (reachable_wf cfg s (in_use_reachable cfg s Huse)) as Hwf.
  destruct e as [k0 v|k0|op error data|h0]; cbn in Hk |- *.
  - apply (handler_set_timers_kept cfg k0 v s Hwf h t Hh). congruence.
  - apply (handler_get_timers_kept cfg k0 s Hwf h t Hh). congruence.
  - destruct (inflight s !! op) as [o|] eqn:Hop.
    + apply (complete_timers_kept cfg op o error data s Hwf Hop h t Hh).
      cbn in Hk. congruence.
    + unfold complete. by rewrite Hop.
  - destruct (timers s !! h0) as [t0|] eqn:Hh0.
    + apply (fire_timers_kept cfg h0 t0 s Hh0 h t Hh). cbn in Hk. congruence.
    + unfold fire. by rewrite Hh0.
Qed.

(** Keys ["a"] and ["b"] both have their two timers queued.  The file timer
    of ["a"] fires: the memory timer and the file timer of ["b"] stay. *)
Lemma step_keeps_other_timers_witness :
  let s := run quiet [Read "a"; Read "b"; IoDone 0 None (Buffer 8);
                      IoDone 1 None (Buffer 9)] init in
  in_use quiet s ∧
  timers s !! 3 = Some (FileTimer "b" 600000) ∧
  event_key s (TimerDue 1) = Some "a" ∧
  timers (step quiet s (TimerDue 1)) !! 3 = Some (FileTimer "b" 600000).
Proof.
  intros s.
  assert (Huse : in_use quiet s).
  { eexists. split; [|reflexivity].
    repeat constructor; first [exact own_key_a | exact own_key_b]. }
  assert (Hh : timers s !! 3 = Some (FileTimer "b" 600000))
    by (vm_compute; reflexivity).
  assert (He : event_key s (TimerDue 1) = Some "a") by (vm_compute; reflexivity).
  split; [exact Huse|]. split; [exact Hh|]. split; [exact He|].
  apply (step_keeps_other_timers quiet s (TimerDue 1) 3 _ Huse I Hh).
  rewrite He. discriminate.
Defined.
